(** * stereoscope: the joint count matrix of [stsc/utils.py]

    A shallow embedding of [make_joint_matrix] and [split_joint_matrix]
    (src/stsc/utils.py, lines 25-142) and of the pandas / numpy / Python
    primitives they call, followed by the properties of the pair.

    Conventions of the embedding.
    - A Python [str] is a [string]; a character is a code point below 256.
    - A [pd.DataFrame] is a record of row labels, column labels and a
      row-major matrix of cells.  Counts are integers; [np.zeros] and the
      assignment into it store them as floats of the same value, which the
      embedding writes as [Z].
    - A Python exception is a value of [exn]; code that can raise returns a
      [result].
    - [read_file] is input/output: [make_joint_matrix] is given the tables
      that [read_file] returned for its paths, in the order of the paths. *)

From Stdlib Require Import ZArith String Ascii List Sorted Lia.
From Stdlib Require Import DecimalString DecimalNat.
From Stdlib Require OrderedTypeEx.
From stdpp Require Import base list strings.
Import ListNotations.

(** ** Exceptions and results *)

Inductive exn : Type :=
| KeyError
| IndexError
| ValueError
| OverflowError
| UnboundLocalError.

Inductive result (A : Type) : Type :=
| Ok (a : A)
| Raise (e : exn).

Arguments Ok {A} a.
Arguments Raise {A} e.

#[global] Instance result_ret : MRet result := @Ok.

#[global] Instance result_bind : MBind result :=
  fun A B f r => match r with Ok a => f a | Raise e => Raise e end.

(** A computation raises when its result is an exception. *)
Definition raises {A : Type} (r : result A) : Prop := exists e, r = Raise e.

(** [for x in l: acc = f(acc, x)], stopping at the first exception. *)
Fixpoint foldM {A B : Type} (f : B -> A -> result B) (l : list A) (acc : B)
  : result B :=
  match l with
  | [] => Ok acc
  | x :: l' => acc' ← f acc x; foldM f l' acc'
  end.

(** [[f(x) for x in l]], stopping at the first exception. *)
Fixpoint map_result {A B : Type} (f : A -> result B) (l : list A)
  : result (list B) :=
  match l with
  | [] => Ok []
  | x :: l' => y ← f x; ys ← map_result f l'; Ok (y :: ys)
  end.

(** [enumerate(l)], counting from [k]. *)
Fixpoint enumerate_from {A : Type} (k : nat) (l : list A) : list (nat * A) :=
  match l with
  | [] => []
  | x :: l' => (k, x) :: enumerate_from (S k) l'
  end.

Definition enumerate {A : Type} (l : list A) : list (nat * A) :=
  enumerate_from 0 l.

(** ** Strings *)

(** The separator ['&-'] is the two characters [&] and [-]. *)
Definition is_sep (c d : ascii) : bool :=
  Ascii.eqb c "&" && Ascii.eqb d "-".

Definition sep : string := "&-".

Definition cons_head (c : ascii) (parts : list string) : list string :=
  match parts with
  | [] => [String c EmptyString]
  | p :: ps => String c p :: ps
  end.

(** [s.split('&-')]: the pieces between the occurrences of the separator,
    found from the left and not overlapping. *)
Fixpoint split_sep (s : string) : list string :=
  match s with
  | EmptyString => [EmptyString]
  | String c s' =>
      match s' with
      | String d s'' =>
          if is_sep c d then EmptyString :: split_sep s''
          else cons_head c (split_sep s')
      | EmptyString => cons_head c (split_sep s')
      end
  end.

(** [s.replace('&-','_')]. *)
Fixpoint replace_sep (s : string) : string :=
  match s with
  | EmptyString => EmptyString
  | String c s' =>
      match s' with
      | String d s'' =>
          if is_sep c d then String "_" (replace_sep s'')
          else String c (replace_sep s')
      | EmptyString => String c (replace_sep s')
      end
  end.

(** ['&-' in s]. *)
Fixpoint has_sep (s : string) : bool :=
  match s with
  | EmptyString => false
  | String c s' =>
      match s' with
      | String d _ => is_sep c d || has_sep s'
      | EmptyString => false
      end
  end.

(** [str(k)] for a non-negative [int]: its decimal numeral. *)
Definition str (k : nat) : string := NilEmpty.string_of_uint (Nat.to_uint k).

(** *** [int(s)]

    The text is stripped of white space at both ends; then comes an optional
    sign and decimal digits, where single underscores may separate digits. *)

Definition is_space (c : ascii) : bool :=
  let n := nat_of_ascii c in
  (9 <=? n) && (n <=? 13) || (28 <=? n) && (n <=? 32)
  || (n =? 133) || (n =? 160).

Definition is_digit (c : ascii) : bool :=
  let n := nat_of_ascii c in (48 <=? n) && (n <=? 57).

Definition digit_val (c : ascii) : Z := (Z.of_nat (nat_of_ascii c) - 48)%Z.

Fixpoint lstrip (s : string) : string :=
  match s with
  | EmptyString => EmptyString
  | String c s' => if is_space c then lstrip s' else s
  end.

(** The string without its trailing characters that satisfy [p]. *)
Fixpoint rstrip_chars (p : ascii -> bool) (s : string) : string :=
  match s with
  | EmptyString => EmptyString
  | String c s' =>
      match rstrip_chars p s' with
      | EmptyString => if p c then EmptyString else String c EmptyString
      | r => String c r
      end
  end.

Definition rstrip (s : string) : string := rstrip_chars is_space s.

Definition strip (s : string) : string := rstrip (lstrip s).

(** The digits after the first one; [us] tells that the previous character
    was an underscore. *)
Fixpoint digits (s : string) (us : bool) (acc : Z) : option Z :=
  match s with
  | EmptyString => if us then None else Some acc
  | String c s' =>
      if is_digit c then digits s' false (10 * acc + digit_val c)%Z
      else if Ascii.eqb c "_" && negb us then digits s' true acc
      else None
  end.

Definition unsigned (s : string) : option Z :=
  match s with
  | EmptyString => None
  | String c s' => if is_digit c then digits s' false (digit_val c) else None
  end.

Definition signed (s : string) : option Z :=
  match s with
  | String c s' =>
      if Ascii.eqb c "+" then unsigned s'
      else if Ascii.eqb c "-" then Z.opp <$> unsigned s'
      else unsigned s
  | EmptyString => None
  end.

Definition py_int (s : string) : option Z := signed (strip s).

(** *** numpy string arrays

    [np.array(idx)] stores the strings in fixed width, padded with NUL, so a
    string read back from the array has lost its trailing NUL characters. *)
Definition rstrip_nul (s : string) : string :=
  rstrip_chars (fun c => Ascii.eqb c zero) s.

Definition int64_min : Z := (- 2 ^ 63)%Z.
Definition int64_max : Z := (2 ^ 63 - 1)%Z.

(** One element of [np.array(idx).astype(int)]: [int] of the stored string,
    then the conversion to a 64-bit integer. *)
Definition astype_int (s : string) : result Z :=
  match py_int (rstrip_nul s) with
  | None => Raise ValueError
  | Some v =>
      if (int64_min <=? v)%Z && (v <=? int64_max)%Z then Ok v
      else Raise OverflowError
  end.

(** ** Tables *)

(** A [pd.DataFrame]: [index] holds the row labels, [columns] the column
    labels and [values] the cells, one list per row. *)
Record DataFrame : Type := mkDataFrame {
  index : list string;
  columns : list string;
  values : list (list Z)
}.

(** The shape of a table that [read_file] returns: one row of cells per row
    label, one cell per column label in each row, and distinct column
    labels ([pd.read_csv] renames a header name that occurs twice).  Row
    labels may occur twice. *)
Definition wf_table (t : DataFrame) : Prop :=
  length (values t) = length (index t)
  /\ Forall (fun row => length row = length (columns t)) (values t)
  /\ NoDup (columns t).

(** *** [pd.Index.union]

    With the default [sort=None], pandas returns [self] as it is when
    [other] is empty or equal to it, [other] as it is when [self] is empty,
    and otherwise the labels of both, each once, in ascending order. *)
Fixpoint insert_label (x : string) (l : list string) : list string :=
  match l with
  | [] => [x]
  | y :: l' =>
      match String.compare x y with
      | Lt => x :: l
      | Eq => l
      | Gt => y :: insert_label x l'
      end
  end.

Definition sort_unique (l : list string) : list string :=
  foldr insert_label [] l.

Definition index_union (self other : list string) : list string :=
  if bool_decide (other = []) || bool_decide (self = other) then self
  else if bool_decide (self = []) then other
  else sort_unique (self ++ other).

(** *** numpy helpers *)

(** [np.cumsum]. *)
Fixpoint cumsum_from (acc : Z) (l : list Z) : list Z :=
  match l with
  | [] => []
  | x :: l' => (acc + x)%Z :: cumsum_from (acc + x)%Z l'
  end.

Definition cumsum (l : list Z) : list Z := cumsum_from 0 l.

(** [np.zeros((n, m))]. *)
Definition zeros (n m : nat) : list (list Z) := replicate n (replicate m 0%Z).

(** [np.unique]: the distinct values in ascending order. *)
Fixpoint insert_unique (x : Z) (l : list Z) : list Z :=
  match l with
  | [] => [x]
  | y :: l' =>
      if (x <? y)%Z then x :: l
      else if (x =? y)%Z then l
      else y :: insert_unique x l'
  end.

Definition np_unique (l : list Z) : list Z := foldr insert_unique [] l.

(** Selection by a boolean array, as in [jmat.iloc[sel,:]] and [name[sel]]. *)
Fixpoint mask {A : Type} (sel : list bool) (l : list A) : list A :=
  match sel, l with
  | b :: sel', x :: l' => if b then x :: mask sel' l' else mask sel' l'
  | _, _ => []
  end.

(** *** [jmat.loc[start:end, cols] = vals] *)

(** The position of a label in an index. *)
Fixpoint get_loc (c : string) (labels : list string) : option nat :=
  match labels with
  | [] => None
  | g :: gs => if String.eqb g c then Some 0 else S <$> get_loc c gs
  end.

(** The positions of the labels [cols]; a label that is missing is a
    [KeyError]. *)
Definition get_indexer (labels cols : list string) : result (list nat) :=
  map_result
    (fun c => match get_loc c labels with
              | Some p => Ok p
              | None => Raise KeyError
              end)
    cols.

(** One row of the assignment: the cell at the [j]-th position receives the
    [j]-th value. *)
Definition set_row (pos : list nat) (vrow row : list Z) : list Z :=
  fold_left (fun r pv => <[fst pv := snd pv]> r) (zip pos vrow) row.

(** [jmat] still has its numeric row names [0 .. n-1] here, and a [.loc]
    slice includes both of its ends: the rows [i] with [start <= i <= end]
    are assigned, the [(i - start)]-th row of [vals] going to row [i].  In
    [make_joint_matrix] the slice has as many rows as [vals]. *)
Definition loc_set (jmat : list (list Z)) (labels : list string)
    (start end_ : Z) (cols : list string) (vals : list (list Z))
  : result (list (list Z)) :=
  pos ← get_indexer labels cols;
  Ok (imap
        (fun i row =>
           if (start <=? Z.of_nat i)%Z && (Z.of_nat i <=? end_)%Z then
             match vals !! Z.to_nat (Z.of_nat i - start) with
             | Some vrow => set_row pos vrow row
             | None => row
             end
           else row)
        jmat).

(** ** [make_joint_matrix] *)

(** The row name of source [k] for the original row name [x]:
    [str(k) + '&-' + x]. *)
Definition row_key (k : nat) (x : string) : string := (str k +:+ sep) +:+ x.

(** The variables of the first loop. *)
Record read_state : Type := mkReadState {
  st_mlist : list DataFrame;
  st_start_pos : list Z;
  st_index : list string;
  st_genes : list string
}.

Definition read_init : read_state :=
  {| st_mlist := []; st_start_pos := [0%Z]; st_index := []; st_genes := [] |}.

(** The body of [for k,pth in enumerate(pths)], [cnt] being what [read_file]
    returned for [pth]. *)
Definition read_step (st : read_state) (kc : nat * DataFrame) : read_state :=
  let (k, cnt) := kc in
  {| st_mlist := st_mlist st ++ [cnt];
     st_index :=
       st_index st ++ (row_key k <$> index cnt);
     st_genes := index_union (st_genes st) (columns cnt);
     st_start_pos := st_start_pos st ++ [Z.of_nat (length (index cnt))] |}.

(** The body of [for k in range(len(start_pos) - 1)]. *)
Definition fill_step (mlist : list DataFrame) (genes : list string)
    (start_pos : list Z) (jmat : list (list Z)) (k : nat)
  : result (list (list Z)) :=
  match start_pos !! k, start_pos !! (k + 1), mlist !! k with
  | Some start, Some next, Some cnt =>
      loc_set jmat genes start (next - 1)%Z (columns cnt) (values cnt)
  | _, _, _ => Raise IndexError
  end.

Definition make_joint_matrix (cnts : list DataFrame) : result DataFrame :=
  let st := fold_left read_step (enumerate cnts) read_init in
  let start_pos := cumsum (st_start_pos st) in
  let genes := st_genes st in
  let jmat0 :=
    zeros (Z.to_nat (List.last start_pos 0%Z)) (length genes) in
  jmat ← foldM (fill_step (st_mlist st) genes start_pos)
               (seq 0 (length start_pos - 1)) jmat0;
  (* jmat.index = index *)
  if Nat.eqb (length (st_index st)) (length jmat) then
    Ok {| index := st_index st; columns := genes; values := jmat |}
  else Raise ValueError.

(** ** [split_joint_matrix] *)

(** [zip] applied to the unpacked list [ls]: the tuple of the first
    elements, then the tuple of the second elements, and so on until one of
    the lists is exhausted; [bound] is a list that is at least as long as
    the shortest one. *)
Fixpoint zip_star_aux {A B : Type} (bound : list B) (ls : list (list A))
  : list (list A) :=
  match bound with
  | [] => []
  | _ :: bound' =>
      match mapM head ls with
      | Some hs => hs :: zip_star_aux bound' (tail <$> ls)
      | None => []
      end
  end.

Definition zip_star {A : Type} (ls : list (list A)) : list (list A) :=
  match ls with
  | [] => []
  | l :: _ => zip_star_aux l ls
  end.

(** The unpacking [idx, name = zip(...)] needs exactly two tuples.  When it
    fails the [except] clause prints a message and execution goes on to
    [pd.Index(name)], where [name] is unbound. *)
Definition split_joint_matrix (jmat : DataFrame) : result (list DataFrame) :=
  match zip_star (split_sep <$> index jmat) with
  | [idx; name] =>
      idx ← map_result astype_int idx;
      let uidx := np_unique idx in
      Ok ((fun k =>
             let sel := (fun i => Z.eqb i k) <$> idx in
             {| index := replace_sep <$> mask sel name;
                columns := columns jmat;
                values := mask sel (values jmat) |})
            <$> uidx)
  | _ => Raise UnboundLocalError
  end.

(** ** What the two functions compute, in closed form *)

Definition nrows (t : DataFrame) : nat := length (index t).

(** The row names of the joint matrix of [cnts], the first table being
    source [k]. *)
Fixpoint joint_index_from (k : nat) (cnts : list DataFrame) : list string :=
  match cnts with
  | [] => []
  | cnt :: rest => (row_key k <$> index cnt) ++ joint_index_from (S k) rest
  end.

(** Its column names. *)
Definition joint_genes (cnts : list DataFrame) : list string :=
  fold_left index_union (columns <$> cnts) [].

(** The positions of the labels [cols] in [genes]. *)
Definition positions (genes cols : list string) : list nat :=
  (fun c => default 0 (get_loc c genes)) <$> cols.

(** The rows of one source in the joint matrix. *)
Definition joint_block (genes : list string) (cnt : DataFrame)
  : list (list Z) :=
  (fun vrow =>
     set_row (positions genes (columns cnt)) vrow
             (replicate (length genes) 0%Z))
    <$> values cnt.

Definition joint_values (genes : list string) (cnts : list DataFrame)
  : list (list Z) :=
  concat (joint_block genes <$> cnts).

Definition sumZ (l : list Z) : Z := foldr Z.add 0%Z l.

(** The number of rows of the sources before source [k]. *)
Definition rows_before (cnts : list DataFrame) (k : nat) : nat :=
  sum_list (nrows <$> take k cnts).

(** Some character of [s] satisfies [p]. *)
Fixpoint has_char (p : ascii -> bool) (s : string) : bool :=
  match s with
  | EmptyString => false
  | String c s' => p c || has_char p s'
  end.

(** A character that occurs in no text that [astype(int)] accepts: not a
    digit, not white space, not a sign, not an underscore and not NUL. *)
Definition not_numeric_char (c : ascii) : bool :=
  negb (is_digit c || is_space c || Ascii.eqb c "+" || Ascii.eqb c "-"
        || Ascii.eqb c "_" || Ascii.eqb c zero).

(** A numeral. *)
Fixpoint all_digits (s : string) : bool :=
  match s with
  | EmptyString => true
  | String c s' => is_digit c && all_digits s'
  end.

(** [start_pos] after [np.cumsum]. *)
Definition start_positions (cnts : list DataFrame) : list Z :=
  cumsum (0%Z :: ((fun t => Z.of_nat (nrows t)) <$> cnts)).

(** The matrix after the iterations of the second loop for the sources
    before [m]: the rows of these sources are filled and all further rows
    are still zero. *)
Definition filled (genes : list string) (cnts : list DataFrame) (m : nat)
  : list (list Z) :=
  joint_values genes (take m cnts)
  ++ replicate (sum_list (nrows <$> drop m cnts))
               (replicate (length genes) 0%Z).

(** The table that [make_joint_matrix] returns. *)
Definition joint (cnts : list DataFrame) : DataFrame :=
  {| index := joint_index_from 0 cnts;
     columns := joint_genes cnts;
     values := joint_values (joint_genes cnts) cnts |}.

(** The source tag, as text, and the original name of every row of the
    joint matrix. *)
Fixpoint keys_from (k : nat) (cnts : list DataFrame) : list (string * string) :=
  match cnts with
  | [] => []
  | cnt :: rest =>
      ((fun x => (str k, x)) <$> index cnt) ++ keys_from (S k) rest
  end.

(** The source tag of every row of the joint matrix, as a number. *)
Fixpoint tags_from (k : nat) (cnts : list DataFrame) : list Z :=
  match cnts with
  | [] => []
  | cnt :: rest => replicate (nrows cnt) (Z.of_nat k) ++ tags_from (S k) rest
  end.

(** The tags of the sources that have a row, in ascending order. *)
Fixpoint sources_from (k : nat) (cnts : list DataFrame) : list Z :=
  match cnts with
  | [] => []
  | cnt :: rest =>
      (if Nat.eqb (nrows cnt) 0 then [] else [Z.of_nat k])
      ++ sources_from (S k) rest
  end.

(** What [split_joint_matrix] returns for a source of the joint matrix. *)
Definition split_table (genes : list string) (t : DataFrame) : DataFrame :=
  {| index := index t; columns := genes; values := joint_block genes t |}.

(** A list of tables that Python can hold and pandas can build: each table
    has the shape of a [DataFrame], and a list has at most [sys.maxsize]
    items, that is [2^63 - 1]. *)
Definition wf_tables (cnts : list DataFrame) : Prop :=
  Forall wf_table cnts /\ (Z.of_nat (length cnts) <= int64_max)%Z.

(** No row label of the tables contains the separator. *)
Definition no_sep_labels (cnts : list DataFrame) : Prop :=
  Forall (fun t => Forall (fun x => has_sep x = false) (index t)) cnts.

(** The table that [split_joint_matrix] builds for the tag [k], from the
    tags and the names of the rows of [jmat]. *)
Definition sub_table (jmat : DataFrame) (tags : list Z) (names : list string)
    (k : Z) : DataFrame :=
  let sel := (fun i => Z.eqb i k) <$> tags in
  {| index := replace_sep <$> mask sel names;
     columns := columns jmat;
     values := mask sel (values jmat) |}.

(** ** Notions used in the statements *)



(** No row label occurs twice, within a table or in two tables. *)
Definition no_collisions (cnts : list DataFrame) : Prop :=
  NoDup (concat (index <$> cnts)).


#[global] Instance wf_table_dec t : Decision (wf_table t).
Proof. unfold wf_table. apply _. Defined.

#[global] Instance wf_tables_dec cnts : Decision (wf_tables cnts).
Proof. unfold wf_tables. apply _. Defined.

#[global] Instance no_sep_labels_dec cnts : Decision (no_sep_labels cnts).
Proof. unfold no_sep_labels. apply _. Defined.

#[global] Instance no_collisions_dec cnts : Decision (no_collisions cnts).
Proof. unfold no_collisions. apply _. Defined.

(** ** Example tables *)

(** The two tables of the scenario of the specification. *)
Definition scenario_T0 : DataFrame :=
  {| index := ["a"; "b"]%string;
     columns := ["g1"; "g2"]%string;
     values := [[1; 2]; [3; 4]]%Z |}.

Definition scenario_T1 : DataFrame :=
  {| index := ["x"]%string;
     columns := ["g2"; "g3"]%string;
     values := [[5; 6]]%Z |}.

Definition scenario_joint : DataFrame :=
  {| index := ["0&-a"; "0&-b"; "1&-x"]%string;
     columns := ["g1"; "g2"; "g3"]%string;
     values := [[1; 2; 0]; [3; 4; 0]; [0; 5; 6]]%Z |}.

(** A table read from a file that has a header line and no row. *)
Definition header_only : DataFrame :=
  {| index := []; columns := ["g1"]%string; values := [] |}.

(** A table with a row label that contains the separator. *)
Definition sep_in_label : DataFrame :=
  {| index := ["a&-b"]%string; columns := ["g1"]%string; values := [[1%Z]] |}.


(** The table without rows and columns. *)
Definition empty_table : DataFrame :=
  {| index := []; columns := []; values := [] |}.

(** ** Row labels of a joint matrix *)

(** The text of a row label before its first separator. *)
Definition label_prefix (lbl : string) : string := hd ""%string (split_sep lbl).


(** The source index and the original name that a row label encodes: the
    label has exactly two pieces and [astype(int)] accepts the first. *)
Definition parse_key (lbl : string) : option (Z * string) :=
  match split_sep lbl with
  | [p; x] =>
      match astype_int p with
      | Ok k => Some (k, x)
      | Raise _ => None
      end
  | _ => None
  end.


(** A joint matrix is well formed when it has the shape of a [DataFrame]
    and every row label encodes a source index and a name. *)
Definition well_formed_joint (jmat : DataFrame) : Prop :=
  length (values jmat) = length (index jmat)
  /\ Forall (fun lbl => is_Some (parse_key lbl)) (index jmat).

#[global] Instance well_formed_joint_dec jmat :
  Decision (well_formed_joint jmat).
Proof. unfold well_formed_joint. apply _. Defined.


Definition row_source (r : Z * string * list Z) : Z := fst (fst r).
Definition row_name (r : Z * string * list Z) : string := snd (fst r).
Definition row_cells (r : Z * string * list Z) : list Z := snd r.




(** A joint matrix whose sources are interleaved and out of order. *)
Definition shuffled_joint : DataFrame :=
  {| index := ["2&-a"; "0&-b"; "2&-c"; "0&-d"]%string;
     columns := ["g1"]%string;
     values := [[1%Z]; [2%Z]; [3%Z]; [4%Z]] |}.

(** * Further notions: row keys, the success of [split_joint_matrix] *)

(** The text between the first and the second separator of a row label. *)
Definition second_piece (lbl : string) : string :=
  nth 1 (split_sep lbl) EmptyString.

(** The number that [astype(int)] reads before the first separator. *)
Definition loose_tag (lbl : string) : Z :=
  match astype_int (label_prefix lbl) with
  | Ok k => k
  | Raise _ => 0%Z
  end.

(** The row labels on which [split_joint_matrix] returns: every label has
    a separator, some label has exactly one, and the text before the first
    separator of every label is an integer. *)
Definition splittable (jmat : DataFrame) : Prop :=
  Forall (fun lbl => 2 <= length (split_sep lbl)) (index jmat)
  /\ Exists (fun lbl => length (split_sep lbl) = 2) (index jmat)
  /\ Forall (fun lbl => exists k, astype_int (label_prefix lbl) = Ok k)
            (index jmat).

(** The rows of a table as [split_joint_matrix] reads them: the number
    before the first separator, the text between the first and the second
    separator, and the cells. *)
Definition loose_rows (jmat : DataFrame) : list (Z * string * list Z) :=
  zip ((fun lbl => (loose_tag lbl, second_piece lbl)) <$> index jmat)
      (values jmat).

(** * The rest of [stsc/utils.py] *)

(** The exceptions of the rest of the module, next to those of the joint
    matrix; [SystemExit] carries the code given to [sys.exit]. *)
Inductive py_exception : Type :=
| Exn (e : exn)
| ZeroDivisionError
| AttributeError
| SystemExit (code : Z).

Inductive outcome (A : Type) : Type :=
| Returns (a : A)
| Raises (e : py_exception).

Arguments Returns {A} a.
Arguments Raises {A} e.

(** ** [LossTracker]

    A loss is a Python number; [str_loss] is its [str].  The file at
    [opth] is a text, opened for appending by each [write_history]; a
    failure of the file system is not modelled. *)

Section LossTrackerModel.

Variable loss : Type.
Variable str_loss : loss -> string.

Record LossTracker : Type := mkLossTracker {
  history : list loss;
  interval : Z;
  opth : string
}.

(** [__init__]. *)
Definition lt_init (opth : string) (interval : Z) : LossTracker :=
  {| history := []; interval := interval + 1; opth := opth |}.

(** [write_history]: the text [',' + ','.join(...)] is appended to the
    file and the history is erased. *)
Definition write_history (self : LossTracker) (file : string)
  : LossTracker * string :=
  ({| history := []; interval := interval self; opth := opth self |},
   file +:+ ("," +:+ String.concat "," (str_loss <$> history self))).

(** [__call__]: the loss is stored first; [epoch % self.interval] raises
    when the interval is zero, after the loss has been stored. *)
Definition lt_call (self : LossTracker) (file : string) (l : loss)
    (epoch : Z) : LossTracker * string * outcome unit :=
  let self' :=
    {| history := history self ++ [l];
       interval := interval self;
       opth := opth self |} in
  if (interval self =? 0)%Z then (self', file, Raises ZeroDivisionError)
  else if (epoch mod interval self =? 0)%Z && (interval self <=? epoch)%Z
       then let (s, f) := write_history self' file in (s, f, Returns tt)
       else (self', file, Returns tt).

(** [__len__]. *)
Definition lt_len (self : LossTracker) : nat := length (history self).

(** [current]: [self.history[-1]]. *)
Definition lt_current (self : LossTracker) : result loss :=
  match last (history self) with
  | Some l => Ok l
  | None => Raise IndexError
  end.

(** A run of calls, as in a training loop: it stops at the first call
    that raises. *)
Fixpoint lt_run (calls : list (loss * Z)) (self : LossTracker)
    (file : string) : LossTracker * string * outcome unit :=
  match calls with
  | [] => (self, file, Returns tt)
  | (l, epoch) :: rest =>
      match lt_call self file l epoch with
      | (s, f, Returns _) => lt_run rest s f
      | r => r
      end
  end.

(** The calls of a loop over the epochs [0, 1, ...]. *)
Definition lt_epochs (losses : list loss) : list (loss * Z) :=
  zip losses (Z.of_nat <$> seq 0 (length losses)).

(** The text of a list of losses in the file: each value after a comma. *)
Definition lt_text (written : list loss) : string :=
  String.concat "" ((fun x => "," +:+ str_loss x) <$> written).

End LossTrackerModel.

Arguments history {loss} _.
Arguments interval {loss} _.
Arguments opth {loss} _.
Arguments mkLossTracker {loss} _ _ _.
Arguments lt_init {loss} _ _.
Arguments lt_len {loss} _.
Arguments lt_current {loss} _.
Arguments write_history {loss} _ _ _.
Arguments lt_call {loss} _ _ _ _ _.
Arguments lt_run {loss} _ _ _ _.
Arguments lt_epochs {loss} _.
Arguments lt_text {loss} _ _.

(** The number of losses in the file after [n] calls at the epochs
    [0 .. n-1], for a tracker made with the interval [i]. *)
Definition lt_written (i n : nat) : nat :=
  if n <=? S i then 0 else n - (n - 1) mod S i.

(** ** [read_file] *)

(** [str.rfind] of one character: its last position, if there is one. *)
Fixpoint rfind (c : ascii) (s : string) : option nat :=
  match s with
  | EmptyString => None
  | String a s' =>
      match rfind c s' with
      | Some i => Some (S i)
      | None => if Ascii.eqb a c then Some 0 else None
      end
  end.

(** [os.path.splitext] on a POSIX system: the extension starts at the last
    dot, when that dot comes after the last slash and some character
    between the two is not a dot. *)
Definition splitext (p : string) : string * string :=
  let filenameIndex := match rfind "/" p with Some i => S i | None => 0 end in
  match rfind "." p with
  | Some dotIndex =>
      if (filenameIndex <=? dotIndex)
         && existsb (fun i => negb (String.eqb (substring i 1 p) "."))
              (seq filenameIndex (dotIndex - filenameIndex))
      then (substring 0 dotIndex p,
            substring dotIndex (String.length p - dotIndex) p)
      else (p, EmptyString)
  | None => (p, EmptyString)
  end.

(** [osp.splitext(file_name)[1][1::]]. *)
Definition extension (file_name : string) : string :=
  match (splitext file_name).2 with
  | EmptyString => EmptyString
  | String _ e => e
  end.

Definition supported : list string := ["tsv"; "gz"].

Inductive compression : Type := infer | gzip.

Definition unsupported_message (ext : string) : string :=
  String.concat " "
    ["ERROR: File format " +:+ ext;
     "is not yet supported. Please";
     "use any of " +:+ String.concat " " supported;
     "formats instead"].

Definition read_error_message (file_name : string) : string :=
  String.concat " "
    ["Something went wrong"; "when trying to read";
     "file >> " +:+ file_name].

Definition lift {A : Type} (r : result A) : outcome A :=
  match r with
  | Ok a => Returns a
  | Raise e => Raises (Exn e)
  end.

(** What follows the first loop of [make_joint_matrix]. *)
Definition join_read (st : read_state) : result DataFrame :=
  let start_pos := cumsum (st_start_pos st) in
  let genes := st_genes st in
  let jmat0 :=
    zeros (Z.to_nat (List.last start_pos 0%Z)) (length genes) in
  jmat ← foldM (fill_step (st_mlist st) genes start_pos)
               (seq 0 (length start_pos - 1)) jmat0;
  if Nat.eqb (length (st_index st)) (length jmat) then
    Ok {| index := st_index st; columns := genes; values := jmat |}
  else Raise ValueError.

Section Files.

(** [pd.read_csv(file_name, header = 0, index_col = 0, compression = ...,
    sep = tab)] on the files at hand: the table of the file, or [None]
    when the call raises. *)
Variable read_csv : string -> compression -> option DataFrame.

(** The lines printed and the outcome; the function returns [None] when
    [read_csv] raises. *)
Definition read_file (file_name : string)
  : list string * outcome (option DataFrame) :=
  let extension := extension file_name in
  if negb (bool_decide (extension ∈ supported)) then
    ([unsupported_message extension], Raises (SystemExit (-1)))
  else if String.eqb extension "tsv" || String.eqb extension "gz" then
    let compression := if String.eqb extension "tsv" then infer else gzip in
    match read_csv file_name compression with
    | Some file => ([], Returns (Some file))
    | None => ([read_error_message file_name], Returns None)
    end
  else ([], Returns None).

(** The first loop of [make_joint_matrix] with its calls of [read_file];
    [cnt.index] raises when [read_file] returned [None]. *)
Fixpoint read_loop (kps : list (nat * string)) (st : read_state)
    (out : list string) : list string * outcome read_state :=
  match kps with
  | [] => (out, Returns st)
  | (k, pth) :: rest =>
      match read_file pth with
      | (o, Returns (Some cnt)) =>
          read_loop rest (read_step st (k, cnt)) (out ++ o)
      | (o, Returns None) => (out ++ o, Raises AttributeError)
      | (o, Raises e) => (out ++ o, Raises e)
      end
  end.

(** [make_joint_matrix] on paths. *)
Definition make_joint_matrix_paths (pths : list string)
  : list string * outcome DataFrame :=
  match read_loop (enumerate pths) read_init [] with
  | (out, Returns st) => (out, lift (join_read st))
  | (out, Raises e) => (out, Raises e)
  end.

End Files.

(** The name of a file: no slash, and a character that is not a dot. *)
Definition file_stem (name : string) : Prop :=
  has_char (fun c => Ascii.eqb c "/") name = false
  /\ has_char (fun c => negb (Ascii.eqb c ".")) name = true.

(** The path of a directory: empty, or ended by a slash. *)
Definition dir_prefix (dir : string) : Prop :=
  dir = EmptyString \/ exists d, dir = d +:+ "/".

(** A path [dir ++ name ++ "." ++ ext] with a name as above and one of the
    extensions of [supported]. *)
Definition supported_path (p : string) : Prop :=
  exists dir name ext,
    p = dir +:+ name +:+ "." +:+ ext
    /\ dir_prefix dir /\ file_stem name /\ ext ∈ supported.

(** [compression] in [read_file]. *)
Definition compression_of (file_name : string) : compression :=
  if String.eqb (extension file_name) "tsv" then infer else gzip.

(** [read_csv] gives the table [cnt] for the path [p], which [read_file]
    accepts. *)
Definition readable (read_csv : string -> compression -> option DataFrame)
    (p : string) (cnt : DataFrame) : Prop :=
  supported_path p /\ read_csv p (compression_of p) = Some cnt.

(** Two files at hand: a table of tab-separated values and a compressed
    one, which only [gzip] reads. *)
Definition scenario_files (p : string) (c : compression) : option DataFrame :=
  if String.eqb p "data/a.tsv" then Some scenario_T0
  else if String.eqb p "b.gz" then
    match c with gzip => Some scenario_T1 | infer => None end
  else None.

(** ** [Logger]

    [logging.getLogger('stsc')] is one object for the whole process: the
    state that [Logger] changes.  The root logger is taken to have no
    handler, as when nothing else configures [logging]. *)

Definition DEBUG : Z := 10.

(** Where a handler writes: [FileHandler] appends to its file,
    [StreamHandler()] writes to [sys.stderr]. *)
Inductive sink : Type := File (filename : string) | Stderr.

Record handler : Type := mkHandler { h_sink : sink; h_level : Z }.

Record logger : Type := mkLogger {
  log_level : Z;
  log_handlers : list handler
}.

(** The logger before the first call: no level set, no handler. *)
Definition new_logger : logger := {| log_level := 0; log_handlers := [] |}.

(** [Logger(logname)], on the state of the logger 'stsc'. *)
Definition Logger (logname : string) (log : logger) : logger :=
  let fh := {| h_sink := File logname; h_level := DEBUG |} in
  let ch := {| h_sink := Stderr; h_level := DEBUG |} in
  {| log_level := DEBUG; log_handlers := log_handlers log ++ [fh; ch] |}.

(** [log.log(levelno, msg)] for a logger with a level and a handler: the
    sinks that get the formatted record, in the order of the handlers. *)
Definition emit (log : logger) (levelno : Z) : list sink :=
  if (log_level log <=? levelno)%Z then
    h_sink <$> filter (fun h => (h_level h <= levelno)%Z) (log_handlers log)
  else [].

(** * Properties *)

(** ** Strings *)

Section Strings.

Lemma split_sep_unfold c s :
  split_sep (String c s) =
  match s with
  | String d s'' =>
      if is_sep c d then EmptyString :: split_sep s''
      else cons_head c (split_sep s)
  | EmptyString => cons_head c (split_sep s)
  end.
Proof. destruct s; reflexivity. Qed.

Lemma replace_sep_unfold c s :
  replace_sep (String c s) =
  match s with
  | String d s'' =>
      if is_sep c d then String "_" (replace_sep s'')
      else String c (replace_sep s)
  | EmptyString => String c (replace_sep s)
  end.
Proof. destruct s; reflexivity. Qed.

Lemma has_sep_unfold c s :
  has_sep (String c s) =
  match s with
  | String d _ => is_sep c d || has_sep s
  | EmptyString => false
  end.
Proof. destruct s; reflexivity. Qed.

(** A string without the separator is a single piece. *)
Lemma split_sep_no_sep x : has_sep x = false -> split_sep x = [x].
Proof.
  induction x as [|c x IH]; [reflexivity|].
  rewrite has_sep_unfold, split_sep_unfold.
  destruct x as [|d x']; [reflexivity|].
  intros [Hcd Hx]%orb_false_elim.
  rewrite Hcd, (IH Hx). reflexivity.
Qed.

(** The first piece of [p & sep & x] is [p] when [p] has no separator. *)
Lemma split_sep_app p x :
  has_sep p = false ->
  split_sep ((p +:+ sep) +:+ x) = p :: split_sep x.
Proof.
  induction p as [|c p IH]; [reflexivity|].
  rewrite has_sep_unfold. intros Hp.
  change ((String c p +:+ sep) +:+ x) with (String c ((p +:+ sep) +:+ x)).
  rewrite split_sep_unfold.
  destruct p as [|d p'].
  - change (("" +:+ sep) +:+ x) with (String "&" (String "-" x)).
    assert (is_sep c "&" = false) as Hc
      by (unfold is_sep; rewrite andb_false_r; reflexivity).
    cbv iota beta. rewrite Hc. reflexivity.
  - apply orb_false_elim in Hp as [Hcd Hp].
    change ((String d p' +:+ sep) +:+ x)
      with (String d ((p' +:+ sep) +:+ x)) in *.
    cbv iota beta. rewrite Hcd, (IH Hp). reflexivity.
Qed.

(** Decoding a composite row key. *)
Lemma split_sep_key p x :
  has_sep p = false -> has_sep x = false ->
  split_sep ((p +:+ sep) +:+ x) = [p; x].
Proof.
  intros Hp Hx. rewrite (split_sep_app _ _ Hp), (split_sep_no_sep _ Hx).
  reflexivity.
Qed.

(** Pieces of a split are free of the separator, so [replace] leaves a
    label without separator as it is. *)
Lemma replace_sep_no_sep x : has_sep x = false -> replace_sep x = x.
Proof.
  induction x as [|c x IH]; [reflexivity|].
  rewrite has_sep_unfold, replace_sep_unfold.
  destruct x as [|d x']; [reflexivity|].
  intros [Hcd Hx]%orb_false_elim.
  rewrite Hcd, (IH Hx). reflexivity.
Qed.

Lemma split_sep_nonempty x : split_sep x <> [].
Proof.
  induction x as [|c x IH]; [discriminate|].
  rewrite split_sep_unfold.
  destruct x as [|d x'].
  - discriminate.
  - destruct (is_sep c d); [discriminate|].
    destruct (split_sep (String d x')); [contradiction|discriminate].
Qed.

(** A label that contains the separator splits in two pieces or more. *)
Lemma split_sep_has_sep x :
  has_sep x = true -> exists p q qs, split_sep x = p :: q :: qs.
Proof.
  induction x as [|c x IH]; [discriminate|].
  rewrite has_sep_unfold, split_sep_unfold.
  destruct x as [|d x']; [discriminate|].
  destruct (is_sep c d) eqn:Hcd; simpl orb.
  - intros _. destruct (split_sep x') as [|q qs] eqn:E; [|eauto].
    exfalso. exact (split_sep_nonempty _ E).
  - intros Hx. destruct (IH Hx) as (p & q & qs & ->). simpl. eauto.
Qed.

(** *** Decimal numerals *)

Lemma digit_not_sep c d : is_digit c = true -> is_sep c d = false.
Proof.
  destruct c as [[] [] [] [] [] [] [] []]; try discriminate; reflexivity.
Qed.

Lemma digit_not_space c : is_digit c = true -> is_space c = false.
Proof.
  destruct c as [[] [] [] [] [] [] [] []]; try discriminate; reflexivity.
Qed.

Lemma digit_not_nul c : is_digit c = true -> Ascii.eqb c zero = false.
Proof.
  destruct c as [[] [] [] [] [] [] [] []]; try discriminate; reflexivity.
Qed.

Lemma digit_not_sign c :
  is_digit c = true -> Ascii.eqb c "+" = false /\ Ascii.eqb c "-" = false.
Proof.
  destruct c as [[] [] [] [] [] [] [] []]; try discriminate; split; reflexivity.
Qed.

Lemma all_digits_no_sep s : all_digits s = true -> has_sep s = false.
Proof.
  induction s as [|c s IH]; [reflexivity|].
  simpl all_digits. intros [Hc Hs]%andb_prop.
  rewrite has_sep_unfold. destruct s as [|d s']; [reflexivity|].
  rewrite (digit_not_sep _ d Hc), (IH Hs). reflexivity.
Qed.

Lemma rstrip_chars_id p s :
  (forall c, is_digit c = true -> p c = false) ->
  all_digits s = true -> rstrip_chars p s = s.
Proof.
  intros Hp. induction s as [|c s IH]; [reflexivity|].
  simpl. intros [Hc Hs]%andb_prop. rewrite (IH Hs).
  destruct s; [rewrite (Hp _ Hc)|]; reflexivity.
Qed.

Lemma strip_digits s : all_digits s = true -> strip s = s.
Proof.
  intros Hs. unfold strip, rstrip.
  replace (lstrip s) with s.
  - apply rstrip_chars_id; [apply digit_not_space|assumption].
  - destruct s as [|c s]; [reflexivity|]. simpl in *.
    apply andb_prop in Hs as [Hc _]. rewrite (digit_not_space _ Hc).
    reflexivity.
Qed.

Lemma all_digits_string_of_uint d :
  all_digits (NilEmpty.string_of_uint d) = true.
Proof. induction d; simpl; auto. Qed.

Lemma digits_string_of_uint d (a : nat) :
  digits (NilEmpty.string_of_uint d) false (Z.of_nat a)
  = Some (Z.of_nat (Nat.of_uint_acc d a)).
Proof.
  revert a. induction d; intros a; [reflexivity|..];
    simpl; rewrite <- IHd; f_equal;
    rewrite Nat.tail_mul_spec;
    match goal with
    | |- context [digit_val ?c] =>
        let v := eval vm_compute in (digit_val c) in
        change (digit_val c) with v
    end; lia.
Qed.

Lemma unsigned_string_of_uint d :
  d <> Decimal.Nil ->
  unsigned (NilEmpty.string_of_uint d) = Some (Z.of_nat (Nat.of_uint d)).
Proof.
  destruct d; [congruence|..]; intros _;
    unfold Nat.of_uint; simpl;
    match goal with
    | |- digits _ _ ?v = Some (Z.of_nat (Nat.of_uint_acc _ ?n)) =>
        change v with (Z.of_nat n)
    end; apply digits_string_of_uint.
Qed.

Lemma to_uint_not_nil k : Nat.to_uint k <> Decimal.Nil.
Proof.
  intros H. pose proof (Unsigned.of_to k) as Hk. rewrite H in Hk.
  simpl in Hk. subst k. discriminate.
Qed.

Lemma all_digits_str k : all_digits (str k) = true.
Proof. apply all_digits_string_of_uint. Qed.

Lemma has_sep_str k : has_sep (str k) = false.
Proof. apply all_digits_no_sep, all_digits_str. Qed.

(** [int(str(k)) = k]. *)
Lemma py_int_str k : py_int (str k) = Some (Z.of_nat k).
Proof.
  unfold py_int. rewrite (strip_digits _ (all_digits_str k)).
  pose proof (all_digits_str k) as Hd.
  pose proof (unsigned_string_of_uint _ (to_uint_not_nil k)) as Hu.
  rewrite Unsigned.of_to in Hu. fold (str k) in Hu.
  destruct (str k) as [|c s]; [discriminate|].
  simpl in Hd. apply andb_prop in Hd as [Hc _].
  unfold signed. destruct (digit_not_sign _ Hc) as [-> ->]. exact Hu.
Qed.

Lemma astype_int_str k :
  (Z.of_nat k <= int64_max)%Z -> astype_int (str k) = Ok (Z.of_nat k).
Proof.
  intros Hk. unfold astype_int, rstrip_nul.
  rewrite (rstrip_chars_id _ _ digit_not_nul (all_digits_str k)).
  rewrite py_int_str.
  replace (int64_min <=? Z.of_nat k)%Z with true
    by (symmetry; apply Z.leb_le; unfold int64_min; lia).
  replace (Z.of_nat k <=? int64_max)%Z with true
    by (symmetry; apply Z.leb_le; lia).
  reflexivity.
Qed.

(** *** Texts that are not integers *)

Lemma not_numeric_char_spec c :
  not_numeric_char c = true ->
  is_digit c = false /\ is_space c = false /\ Ascii.eqb c "+" = false
  /\ Ascii.eqb c "-" = false /\ Ascii.eqb c "_" = false
  /\ Ascii.eqb c zero = false.
Proof.
  unfold not_numeric_char. rewrite negb_true_iff, !orb_false_iff. tauto.
Qed.

Lemma has_char_rstrip_chars p q s :
  (forall c, p c = true -> q c = false) ->
  has_char p s = true -> has_char p (rstrip_chars q s) = true.
Proof.
  intros Hpq. induction s as [|c s IH]; [discriminate|].
  simpl. intros [Hc|Hs]%orb_prop.
  - destruct (rstrip_chars q s); [rewrite (Hpq _ Hc)|]; simpl;
      rewrite Hc; reflexivity.
  - specialize (IH Hs). destruct (rstrip_chars q s); [discriminate|].
    simpl in *. rewrite IH. apply orb_true_r.
Qed.

Lemma has_char_lstrip p s :
  (forall c, p c = true -> is_space c = false) ->
  has_char p s = true -> has_char p (lstrip s) = true.
Proof.
  intros Hp. induction s as [|c s IH]; [discriminate|].
  simpl. destruct (is_space c) eqn:Hc; [|intros H; exact H].
  intros [Hpc|Hs]%orb_prop; [|exact (IH Hs)].
  rewrite (Hp _ Hpc) in Hc. discriminate.
Qed.

Lemma digits_not_numeric s : forall us acc,
  has_char not_numeric_char s = true -> digits s us acc = None.
Proof.
  induction s as [|c s IH]; intros us acc; [discriminate|].
  simpl. intros [Hc|Hs]%orb_prop.
  - apply not_numeric_char_spec in Hc as (-> & _ & _ & _ & -> & _).
    reflexivity.
  - destruct (is_digit c); [apply IH, Hs|].
    destruct (Ascii.eqb c "_" && negb us); [apply IH, Hs|reflexivity].
Qed.

Lemma unsigned_not_numeric s :
  has_char not_numeric_char s = true -> unsigned s = None.
Proof.
  destruct s as [|c s]; [reflexivity|]. simpl. intros [Hc|Hs]%orb_prop.
  - apply not_numeric_char_spec in Hc as (-> & _). reflexivity.
  - destruct (is_digit c); [apply digits_not_numeric, Hs|reflexivity].
Qed.

Lemma py_int_not_numeric s :
  has_char not_numeric_char s = true -> py_int s = None.
Proof.
  intros Hs. unfold py_int, strip, rstrip.
  assert (has_char not_numeric_char (rstrip_chars is_space (lstrip s))
          = true) as H.
  { apply has_char_rstrip_chars; [|apply has_char_lstrip; [|exact Hs]];
      intros c Hc; apply not_numeric_char_spec in Hc; tauto. }
  destruct (rstrip_chars is_space (lstrip s)) as [|c r]; [reflexivity|].
  unfold signed. simpl in H. apply orb_prop in H as [Hc|Hr].
  - pose proof Hc as Hc'.
    apply not_numeric_char_spec in Hc as (_ & _ & -> & -> & _).
    apply unsigned_not_numeric. simpl. rewrite Hc'. reflexivity.
  - destruct (Ascii.eqb c "+"); [apply unsigned_not_numeric, Hr|].
    destruct (Ascii.eqb c "-").
    + rewrite (unsigned_not_numeric _ Hr). reflexivity.
    + apply unsigned_not_numeric. simpl. rewrite Hr. apply orb_true_r.
Qed.

(** A text with a letter, or any other character that is foreign to
    integers, is not converted: the conversion raises [ValueError]. *)
Lemma astype_int_not_numeric s :
  has_char not_numeric_char s = true -> astype_int s = Raise ValueError.
Proof.
  intros Hs. unfold astype_int, rstrip_nul. rewrite py_int_not_numeric.
  - reflexivity.
  - apply has_char_rstrip_chars; [|exact Hs].
    intros c Hc. apply not_numeric_char_spec in Hc. tauto.
Qed.

End Strings.

(** ** The first loop of [make_joint_matrix] *)

Section ReadLoop.

Lemma read_fold cnts : forall k st,
  fold_left read_step (enumerate_from k cnts) st =
  {| st_mlist := st_mlist st ++ cnts;
     st_start_pos :=
       st_start_pos st ++ ((fun t => Z.of_nat (nrows t)) <$> cnts);
     st_index := st_index st ++ joint_index_from k cnts;
     st_genes := fold_left index_union (columns <$> cnts) (st_genes st) |}.
Proof.
  induction cnts as [|cnt cnts IH]; intros k st.
  - destruct st; simpl. rewrite !app_nil_r. reflexivity.
  - simpl. rewrite IH. simpl. rewrite <- !app_assoc. reflexivity.
Qed.

(** *** The union of the column names *)

Lemma elem_of_insert_label x y l :
  x ∈ insert_label y l <-> x = y \/ x ∈ l.
Proof.
  induction l as [|z l IH]; simpl.
  - rewrite list_elem_of_singleton, elem_of_nil. tauto.
  - destruct (String.compare y z) eqn:E.
    + apply String.compare_eq_iff in E. subst z.
      rewrite elem_of_cons. tauto.
    + rewrite !elem_of_cons. tauto.
    + rewrite !elem_of_cons, IH. tauto.
Qed.

Lemma elem_of_sort_unique x l : x ∈ sort_unique l <-> x ∈ l.
Proof.
  induction l as [|y l IH]; simpl; [reflexivity|].
  rewrite elem_of_insert_label, IH, elem_of_cons. reflexivity.
Qed.

Lemma elem_of_index_union x a b :
  x ∈ index_union a b <-> x ∈ a \/ x ∈ b.
Proof.
  unfold index_union.
  destruct (bool_decide (b = [])) eqn:Eb; simpl.
  { apply bool_decide_eq_true in Eb. subst b.
    rewrite elem_of_nil. tauto. }
  destruct (bool_decide (a = b)) eqn:Eab; simpl.
  { apply bool_decide_eq_true in Eab. subst b. tauto. }
  destruct (bool_decide (a = [])) eqn:Ea.
  { apply bool_decide_eq_true in Ea. subst a.
    rewrite elem_of_nil. tauto. }
  rewrite elem_of_sort_unique, elem_of_app. reflexivity.
Qed.

Lemma elem_of_fold_union x ls : forall acc,
  x ∈ fold_left index_union ls acc <-> x ∈ acc \/ exists l, l ∈ ls /\ x ∈ l.
Proof.
  induction ls as [|l ls IH]; intros acc; simpl.
  - split; [auto|]. intros [H|(l & Hl & _)]; [exact H|].
    apply elem_of_nil in Hl. contradiction.
  - rewrite IH, elem_of_index_union. split.
    + intros [[H|H]|(l' & Hl' & H)]; [auto| |].
      * right. exists l. split; [left|exact H].
      * right. exists l'. split; [right; exact Hl'|exact H].
    + intros [H|(l' & Hl' & H)]; [auto|].
      apply elem_of_cons in Hl' as [->|Hl']; [auto|].
      right. exists l'. auto.
Qed.

(** The labels of a union are distinct. *)

Lemma insert_label_sorted x l :
  StronglySorted OrderedTypeEx.String_as_OT.lt l ->
  StronglySorted OrderedTypeEx.String_as_OT.lt (insert_label x l).
Proof.
  induction 1 as [|z l Hl IH Hz]; simpl.
  - repeat constructor.
  - destruct (String.compare x z) eqn:E.
    + constructor; assumption.
    + apply OrderedTypeEx.String_as_OT.cmp_lt in E.
      constructor; [constructor; assumption|].
      constructor; [exact E|].
      eapply Forall_impl; [exact Hz|]. intros y Hy. simpl in Hy.
      eapply OrderedTypeEx.String_as_OT.lt_trans; eassumption.
    + assert (OrderedTypeEx.String_as_OT.lt z x) as Hzx.
      { apply OrderedTypeEx.String_as_OT.cmp_lt.
        rewrite OrderedTypeEx.String_as_OT.cmp_antisym.
        unfold OrderedTypeEx.String_as_OT.cmp. rewrite E. reflexivity. }
      constructor; [exact IH|].
      apply Forall_forall. intros y Hy.
      apply elem_of_insert_label in Hy as [->|Hy]; [exact Hzx|].
      rewrite Forall_forall in Hz. auto.
Qed.

Lemma sort_unique_sorted l :
  StronglySorted OrderedTypeEx.String_as_OT.lt (sort_unique l).
Proof.
  induction l as [|x l IH]; simpl; [constructor|].
  apply insert_label_sorted, IH.
Qed.

Lemma sorted_labels_NoDup l :
  StronglySorted OrderedTypeEx.String_as_OT.lt l -> NoDup l.
Proof.
  induction 1 as [|x l _ IH Hx]; constructor; [|exact IH].
  intros Hin. rewrite Forall_forall in Hx.
  apply (OrderedTypeEx.String_as_OT.lt_not_eq _ _ (Hx _ Hin)). reflexivity.
Qed.

Lemma index_union_NoDup a b :
  NoDup a -> NoDup b -> NoDup (index_union a b).
Proof.
  intros Ha Hb. unfold index_union.
  destruct (bool_decide (b = []) || bool_decide (a = b)); [exact Ha|].
  destruct (bool_decide (a = [])); [exact Hb|].
  apply sorted_labels_NoDup, sort_unique_sorted.
Qed.

Lemma joint_genes_NoDup cnts :
  Forall (fun t => NoDup (columns t)) cnts -> NoDup (joint_genes cnts).
Proof.
  unfold joint_genes. generalize (NoDup_nil_2 (A := string)).
  generalize (@nil string).
  induction cnts as [|t cnts IH]; intros acc Hacc H; [exact Hacc|].
  apply Forall_cons in H as [Ht H]. rewrite fmap_cons. simpl.
  apply IH; [apply index_union_NoDup; assumption|exact H].
Qed.

Lemma elem_of_joint_genes g cnts :
  g ∈ joint_genes cnts <-> exists t, t ∈ cnts /\ g ∈ columns t.
Proof.
  unfold joint_genes. rewrite elem_of_fold_union. split.
  - intros [H|(l & Hl & H)]; [apply elem_of_nil in H; contradiction|].
    apply list_elem_of_fmap in Hl as (t & -> & Ht). eauto.
  - intros (t & Ht & H). right. exists (columns t). split; [|exact H].
    apply list_elem_of_fmap. eauto.
Qed.

(** *** Positions of labels *)


Lemma get_loc_elem_of c labels :
  c ∈ labels -> exists p, get_loc c labels = Some p.
Proof.
  induction labels as [|g gs IH]; simpl.
  - intros H. apply elem_of_nil in H. contradiction.
  - intros H. destruct (String.eqb g c) eqn:E; [eauto|].
    apply elem_of_cons in H as [->|H].
    + rewrite String.eqb_refl in E. discriminate.
    + destruct (IH H) as [p ->]. simpl. eauto.
Qed.

Lemma get_loc_None c labels : get_loc c labels = None -> c ∉ labels.
Proof.
  intros E H. destruct (get_loc_elem_of _ _ H) as [p Hp]. congruence.
Qed.

Lemma get_indexer_positions genes cols :
  (forall c, c ∈ cols -> c ∈ genes) ->
  get_indexer genes cols = Ok (positions genes cols).
Proof.
  unfold get_indexer, positions.
  induction cols as [|c cols IH]; intros H; simpl; [reflexivity|].
  destruct (get_loc_elem_of c genes) as [p Hp]; [apply H; left|].
  rewrite Hp. simpl. rewrite IH; [reflexivity|].
  intros c' Hc'. apply H. right. exact Hc'.
Qed.

End ReadLoop.

(** ** The second loop of [make_joint_matrix] *)

(** Settles a comparison [a <=? b] of the goal by linear arithmetic. *)
Ltac settle_leb :=
  match goal with
  | |- context [(?a <=? ?b)%Z] =>
      first
        [ replace (a <=? b)%Z with true by (symmetry; apply Z.leb_le; lia)
        | replace (a <=? b)%Z with false by (symmetry; apply Z.leb_gt; lia) ]
  end.

Section StartPositions.

Lemma length_cumsum_from l : forall a, length (cumsum_from a l) = length l.
Proof. induction l; intros; simpl; auto. Qed.

Lemma sumZ_cons x l : sumZ (x :: l) = (x + sumZ l)%Z.
Proof. reflexivity. Qed.

Lemma cumsum_from_lookup l : forall a k,
  k < length l ->
  cumsum_from a l !! k = Some (a + sumZ (take (S k) l))%Z.
Proof.
  induction l as [|x l IH]; intros a k Hk; simpl in Hk; [lia|].
  destruct k as [|k]; simpl.
  - f_equal. unfold sumZ. simpl. lia.
  - rewrite IH by lia. f_equal. unfold sumZ. simpl. lia.
Qed.

Lemma last_cumsum_from l : forall a d,
  List.last (a :: cumsum_from a l) d = (a + sumZ l)%Z.
Proof.
  induction l as [|x l IH]; intros a d.
  - unfold sumZ. simpl. lia.
  - change (cumsum_from a (x :: l))
      with ((a + x)%Z :: cumsum_from (a + x)%Z l).
    change (List.last (a :: (a + x)%Z :: cumsum_from (a + x)%Z l) d)
      with (List.last ((a + x)%Z :: cumsum_from (a + x)%Z l) d).
    rewrite IH. unfold sumZ. simpl. lia.
Qed.

Lemma sumZ_nrows cnts :
  sumZ ((fun t => Z.of_nat (nrows t)) <$> cnts)
  = Z.of_nat (sum_list (nrows <$> cnts)).
Proof.
  induction cnts as [|t cnts IH]; [reflexivity|].
  rewrite !fmap_cons, sumZ_cons, IH. simpl. lia.
Qed.

Lemma length_start_positions cnts :
  length (start_positions cnts) = S (length cnts).
Proof.
  unfold start_positions, cumsum. simpl.
  rewrite length_cumsum_from, length_fmap. reflexivity.
Qed.

Lemma start_positions_lookup cnts k :
  k <= length cnts ->
  start_positions cnts !! k = Some (Z.of_nat (rows_before cnts k)).
Proof.
  intros Hk. unfold start_positions, cumsum, rows_before.
  change (cumsum_from 0 (0%Z :: ?l)) with (0%Z :: cumsum_from 0 l).
  destruct k as [|k]; [reflexivity|].
  simpl lookup. rewrite cumsum_from_lookup by (rewrite length_fmap; lia).
  rewrite <- fmap_take, sumZ_nrows. reflexivity.
Qed.

Lemma last_start_positions cnts :
  List.last (start_positions cnts) 0%Z
  = Z.of_nat (sum_list (nrows <$> cnts)).
Proof.
  unfold start_positions, cumsum.
  change (cumsum_from 0 (0%Z :: ?l)) with (0%Z :: cumsum_from 0 l).
  rewrite last_cumsum_from, sumZ_nrows. lia.
Qed.

Lemma rows_before_S cnts k t :
  cnts !! k = Some t -> rows_before cnts (S k) = rows_before cnts k + nrows t.
Proof.
  intros Ht. unfold rows_before.
  rewrite (take_S_r _ _ _ Ht), fmap_app, sum_list_with_app. simpl. lia.
Qed.

End StartPositions.

(** *** One assignment *)

Section Assignment.

Lemma loc_set_block (A C : list (list Z)) genes cols vals zrow :
  (forall c, c ∈ cols -> c ∈ genes) ->
  loc_set (A ++ replicate (length vals) zrow ++ C) genes
          (Z.of_nat (length A))
          (Z.of_nat (length A + length vals) - 1)%Z cols vals
  = Ok (A ++ ((fun vrow => set_row (positions genes cols) vrow zrow)
                <$> vals) ++ C).
Proof.
  intros Hcols. unfold loc_set.
  rewrite (get_indexer_positions _ _ Hcols). simpl. f_equal.
  rewrite !imap_app, length_replicate. f_equal; [|f_equal].
  - rewrite <- (list_fmap_id A) at 2. rewrite <- imap_const.
    apply imap_ext. intros i row Hi. apply lookup_lt_Some in Hi.
    do 2 settle_leb. reflexivity.
  - apply list_eq. intros i.
    rewrite list_lookup_imap, list_lookup_fmap.
    destruct (vals !! i) as [vrow|] eqn:Ev.
    + pose proof (lookup_lt_Some _ _ _ Ev) as Hi.
      rewrite lookup_replicate_2 by exact Hi. simpl.
      do 2 settle_leb.
      replace (Z.to_nat (Z.of_nat (length A + i) - Z.of_nat (length A)))
        with i by lia.
      simpl. rewrite Ev. reflexivity.
    + apply lookup_ge_None in Ev.
      assert (replicate (length vals) zrow !! i = None) as ->
        by (apply lookup_replicate_None; lia).
      reflexivity.
  - rewrite <- (list_fmap_id C) at 2. rewrite <- imap_const.
    apply imap_ext. intros i row Hi.
    do 2 settle_leb. rewrite andb_false_r. reflexivity.
Qed.

End Assignment.

(** *** The loop *)

Section JointValues.

Lemma length_joint_block genes t :
  length (joint_block genes t) = length (values t).
Proof. unfold joint_block. apply length_fmap. Qed.

Lemma length_joint_values genes cnts :
  Forall (fun t => length (values t) = nrows t) cnts ->
  length (joint_values genes cnts) = sum_list (nrows <$> cnts).
Proof.
  unfold joint_values. induction 1 as [|t cnts Ht _ IH]; [reflexivity|].
  rewrite !fmap_cons, concat_cons, length_app, length_joint_block, IH, Ht.
  reflexivity.
Qed.

Lemma joint_values_app genes l1 l2 :
  joint_values genes (l1 ++ l2)
  = joint_values genes l1 ++ joint_values genes l2.
Proof. unfold joint_values. rewrite fmap_app, concat_app. reflexivity. Qed.

End JointValues.

Section FillLoop.

Variable genes : list string.
Variable cnts : list DataFrame.

(** Every table has one row of cells per row label, and [genes] holds
    the columns of every table. *)
Hypothesis Hshape : Forall (fun t => length (values t) = nrows t) cnts.
Hypothesis Hgenes : forall t c, t ∈ cnts -> c ∈ columns t -> c ∈ genes.

Lemma fill_step_lookup jmat m t :
  cnts !! m = Some t ->
  fill_step cnts genes (start_positions cnts) jmat m
  = loc_set jmat genes (Z.of_nat (rows_before cnts m))
            (Z.of_nat (rows_before cnts m + nrows t) - 1)%Z
            (columns t) (values t).
Proof.
  intros Ht. pose proof (lookup_lt_Some _ _ _ Ht) as Hm.
  unfold fill_step. replace (m + 1) with (S m) by lia.
  rewrite !start_positions_lookup by lia.
  rewrite Ht, (rows_before_S _ _ _ Ht). reflexivity.
Qed.

(** Started on the matrix in which the sources before [m] are filled,
    the iterations [m, m+1, ...] end with the whole matrix filled. *)
Lemma fill_loop d : forall m,
  m + d = length cnts ->
  foldM (fill_step cnts genes (start_positions cnts)) (seq m d)
        (filled genes cnts m)
  = Ok (joint_values genes cnts).
Proof using Hshape Hgenes.
  induction d as [|d IH]; intros m Hm.
  - simpl. unfold filled.
    rewrite take_ge, drop_ge by lia. simpl. rewrite app_nil_r. reflexivity.
  - destruct (lookup_lt_is_Some_2 cnts m) as [t Ht]; [lia|].
    cbn [seq foldM]. rewrite (fill_step_lookup _ _ _ Ht).
    pose proof (list_elem_of_lookup_2 _ _ _ Ht) as Hin.
    assert (length (values t) = nrows t) as Hlen
      by (rewrite Forall_forall in Hshape; apply Hshape; exact Hin).
    assert (Forall (fun t => length (values t) = nrows t) (take m cnts))
      as Htake by (apply Forall_take; exact Hshape).
    unfold filled at 1.
    rewrite (drop_S _ _ _ Ht). simpl sum_list.
    rewrite <- Hlen, replicate_add.
    unfold rows_before. rewrite <- (length_joint_values genes _ Htake).
    rewrite loc_set_block by (intros c Hc; eapply Hgenes; eauto).
    simpl. rewrite <- (IH (S m)) by lia. f_equal.
    unfold filled. rewrite (take_S_r _ _ _ Ht), joint_values_app.
    rewrite <- !app_assoc. f_equal.
    unfold joint_values. simpl. rewrite app_nil_r. reflexivity.
Qed.

End FillLoop.

(** ** [make_joint_matrix], in closed form *)

Section Join.

Lemma length_joint_index cnts : forall k,
  length (joint_index_from k cnts) = sum_list (nrows <$> cnts).
Proof.
  induction cnts as [|t cnts IH]; intros k; [reflexivity|].
  cbn [joint_index_from]. rewrite length_app, length_fmap, IH. reflexivity.
Qed.

Lemma wf_table_shape cnts :
  Forall wf_table cnts ->
  Forall (fun t => length (values t) = nrows t) cnts.
Proof.
  intros H. eapply Forall_impl; [exact H|]. intros t (Ht & _). exact Ht.
Qed.

(** [make_joint_matrix] raises nothing: it returns [joint cnts]. *)
Lemma make_joint_matrix_joint cnts :
  Forall (fun t => length (values t) = nrows t) cnts ->
  make_joint_matrix cnts = Ok (joint cnts).
Proof.
  intros Hshape. unfold make_joint_matrix, enumerate.
  rewrite read_fold. cbn [st_mlist st_start_pos st_index st_genes read_init].
  change ([0%Z] ++ ?l) with (0%Z :: l).
  change (cumsum (0%Z :: ((fun t => Z.of_nat (nrows t)) <$> cnts)))
    with (start_positions cnts).
  fold (joint_genes cnts).
  rewrite last_start_positions, Nat2Z.id, length_start_positions.
  replace (S (length cnts) - 1) with (length cnts) by lia.
  change (zeros (sum_list (nrows <$> cnts)) (length (joint_genes cnts)))
    with (filled (joint_genes cnts) cnts 0).
  rewrite (fill_loop (joint_genes cnts) cnts Hshape).
  - cbn [mbind result_bind app].
    rewrite length_joint_index, (length_joint_values _ _ Hshape).
    rewrite Nat.eqb_refl. reflexivity.
  - intros t c Ht Hc. apply elem_of_joint_genes. eauto.
  - reflexivity.
Qed.

End Join.

(** ** The pieces of [split_joint_matrix] *)

Section SplitPieces.

(** *** [zip] of the unpacked pieces *)

Lemma mapM_head_pairs {A : Type} (l : list (A * A)) :
  mapM head ((fun p => [fst p; snd p]) <$> l) = Some (fst <$> l).
Proof.
  induction l as [|p l IH]; [reflexivity|].
  rewrite !fmap_cons. cbn [mapM]. rewrite IH. reflexivity.
Qed.

Lemma mapM_head_singles {A : Type} (l : list (A * A)) :
  mapM head ((fun p => [snd p]) <$> l) = Some (snd <$> l).
Proof.
  induction l as [|p l IH]; [reflexivity|].
  rewrite !fmap_cons. cbn [mapM]. rewrite IH. reflexivity.
Qed.

Lemma zip_star_aux_pairs {A B : Type} (b1 b2 : B) (l : list (A * A)) :
  zip_star_aux [b1; b2] ((fun p => [fst p; snd p]) <$> l)
  = [fst <$> l; snd <$> l].
Proof.
  cbn [zip_star_aux]. rewrite mapM_head_pairs, <- list_fmap_compose.
  change (tail ∘ (fun p : A * A => [fst p; snd p]))
    with (fun p : A * A => [snd p]).
  rewrite mapM_head_singles. reflexivity.
Qed.

(** When every row label has two pieces, [zip] yields the tuple of the
    first pieces and the tuple of the second pieces. *)
Lemma zip_star_pairs {A : Type} (l : list (A * A)) :
  l <> [] ->
  zip_star ((fun p => [fst p; snd p]) <$> l) = [fst <$> l; snd <$> l].
Proof.
  destruct l as [|p l]; [congruence|]. intros _.
  exact (zip_star_aux_pairs (fst p) (snd p) (p :: l)).
Qed.

Lemma mapM_head_length {A : Type} (ls : list (list A)) hs l :
  mapM head ls = Some hs -> l ∈ ls -> 0 < length l.
Proof.
  revert hs. induction ls as [|l0 ls IH]; intros hs H Hl.
  - apply elem_of_nil in Hl. contradiction.
  - cbn [mapM] in H. destruct l0 as [|x l0]; [discriminate|].
    destruct (mapM head ls) as [hs'|] eqn:E; [|discriminate].
    apply elem_of_cons in Hl as [->|Hl]; [simpl; lia|].
    eapply IH; [reflexivity|exact Hl].
Qed.


Lemma length_zip_star_aux {A B : Type} (bound : list B) :
  forall (ls : list (list A)) l,
    l ∈ ls -> length (zip_star_aux bound ls) <= length l.
Proof.
  induction bound as [|b bound IH]; intros ls l Hl; [simpl; lia|].
  cbn [zip_star_aux]. destruct (mapM head ls) as [hs|] eqn:E; [|simpl; lia].
  pose proof (mapM_head_length _ _ _ E Hl) as Hpos.
  assert (tail l ∈ tail <$> ls) as Ht
    by (apply list_elem_of_fmap; eauto).
  specialize (IH _ _ Ht). destruct l; simpl in *; lia.
Qed.

(** [zip] stops at the shortest of its arguments. *)
Lemma length_zip_star {A : Type} (ls : list (list A)) l :
  l ∈ ls -> length (zip_star ls) <= length l.
Proof.
  intros Hl. destruct ls as [|l0 ls]; [simpl; lia|].
  apply length_zip_star_aux. exact Hl.
Qed.


(** *** [map_result] *)

Lemma map_result_app {A B : Type} (f : A -> result B) l1 l2 r1 r2 :
  map_result f l1 = Ok r1 -> map_result f l2 = Ok r2 ->
  map_result f (l1 ++ l2) = Ok (r1 ++ r2).
Proof.
  revert r1. induction l1 as [|x l1 IH]; intros r1; simpl.
  - intros [= <-] H. exact H.
  - destruct (f x) as [y|]; simpl; [|discriminate].
    destruct (map_result f l1) as [ys|]; simpl; [|discriminate].
    intros [= <-] H. rewrite (IH ys eq_refl H). reflexivity.
Qed.

Lemma map_result_replicate {A B : Type} (f : A -> result B) n x y :
  f x = Ok y -> map_result f (replicate n x) = Ok (replicate n y).
Proof.
  intros H. induction n as [|n IH]; simpl; [reflexivity|].
  rewrite H. simpl. rewrite IH. reflexivity.
Qed.


Lemma map_result_Forall2 {A B : Type} (f : A -> result B) l r :
  map_result f l = Ok r -> Forall2 (fun x y => f x = Ok y) l r.
Proof.
  revert r. induction l as [|x l IH]; intros r; simpl.
  - intros [= <-]. constructor.
  - destruct (f x) as [y|] eqn:E; simpl; [|discriminate].
    destruct (map_result f l) as [ys|]; simpl; [|discriminate].
    intros [= <-]. constructor; auto.
Qed.

Lemma map_result_Ok {A B : Type} (f : A -> result B) l :
  Forall (fun x => exists y, f x = Ok y) l -> exists r, map_result f l = Ok r.
Proof.
  induction 1 as [|x l [y Hy] _ [r IH]]; simpl; [eauto|].
  rewrite Hy, IH. simpl. eauto.
Qed.

(** *** Boolean selection *)

Lemma mask_app {A : Type} (s1 s2 : list bool) (l1 l2 : list A) :
  length s1 = length l1 ->
  mask (s1 ++ s2) (l1 ++ l2) = mask s1 l1 ++ mask s2 l2.
Proof.
  revert l1. induction s1 as [|b s1 IH]; intros [|x l1] H;
    simpl in *; try discriminate; [reflexivity|].
  rewrite IH by lia. destruct b; reflexivity.
Qed.

Lemma mask_replicate_true {A : Type} (l : list A) :
  mask (replicate (length l) true) l = l.
Proof. induction l as [|x l IH]; simpl; [|rewrite IH]; reflexivity. Qed.

Lemma mask_replicate_false {A : Type} n (l : list A) :
  mask (replicate n false) l = [].
Proof.
  revert l. induction n as [|n IH]; intros [|x l]; simpl; auto.
Qed.

(** Selection keeps the selected rows in their order: it is a filter. *)
Lemma mask_filter {A : Type} (p : Z -> bool) (tags : list Z) (l : list A) :
  mask (p <$> tags) l
  = snd <$> filter (fun r => p (fst r) = true) (zip tags l).
Proof.
  revert l. induction tags as [|t tags IH]; intros [|x l]; try reflexivity.
  simpl. rewrite filter_cons. simpl. rewrite IH.
  destruct (p t) eqn:E.
  - rewrite decide_True by reflexivity. reflexivity.
  - rewrite decide_False by discriminate. reflexivity.
Qed.

(** *** [np.unique] *)

Lemma elem_of_insert_unique x y l :
  y ∈ insert_unique x l <-> y = x \/ y ∈ l.
Proof.
  induction l as [|z l IH]; simpl.
  - rewrite list_elem_of_singleton, elem_of_nil. tauto.
  - destruct (x <? z)%Z; [rewrite !elem_of_cons; tauto|].
    destruct (x =? z)%Z eqn:E.
    + apply Z.eqb_eq in E. subst z. rewrite elem_of_cons. tauto.
    + rewrite !elem_of_cons, IH. tauto.
Qed.

Lemma elem_of_np_unique x l : x ∈ np_unique l <-> x ∈ l.
Proof.
  induction l as [|y l IH]; simpl; [reflexivity|].
  rewrite elem_of_insert_unique, IH, elem_of_cons. reflexivity.
Qed.

Lemma insert_unique_sorted x l :
  StronglySorted Z.lt l -> StronglySorted Z.lt (insert_unique x l).
Proof.
  induction 1 as [|z l Hl IH Hz]; simpl.
  - repeat constructor.
  - destruct (x <? z)%Z eqn:E1.
    + apply Z.ltb_lt in E1. constructor; [constructor; assumption|].
      constructor; [exact E1|].
      eapply Forall_impl; [exact Hz|]. intros; simpl in *; lia.
    + destruct (x =? z)%Z eqn:E2; [constructor; assumption|].
      apply Z.ltb_ge in E1. apply Z.eqb_neq in E2.
      constructor; [exact IH|].
      apply Forall_forall. intros y Hy.
      apply elem_of_insert_unique in Hy as [->|Hy]; [lia|].
      rewrite Forall_forall in Hz. auto.
Qed.

(** [np.unique] returns its values in strictly ascending order. *)
Lemma np_unique_sorted l : StronglySorted Z.lt (np_unique l).
Proof.
  induction l as [|x l IH]; simpl; [constructor|].
  apply insert_unique_sorted, IH.
Qed.

Lemma insert_unique_below x l :
  Forall (fun y => (x < y)%Z) l -> insert_unique x l = x :: l.
Proof.
  destruct 1 as [|y l Hy _]; simpl; [reflexivity|].
  apply Z.ltb_lt in Hy. rewrite Hy. reflexivity.
Qed.

Lemma insert_unique_head x l : insert_unique x (x :: l) = x :: l.
Proof. simpl. rewrite Z.ltb_irrefl, Z.eqb_refl. reflexivity. Qed.

Lemma np_unique_replicate n x l :
  Forall (fun y => (x < y)%Z) l ->
  np_unique (replicate n x ++ l)
  = (if Nat.eqb n 0 then [] else [x]) ++ np_unique l.
Proof.
  intros Hl.
  assert (Forall (fun y => (x < y)%Z) (np_unique l)) as Hu.
  { apply Forall_forall. intros y Hy.
    apply (proj1 (elem_of_np_unique _ _)) in Hy.
    rewrite Forall_forall in Hl. auto. }
  destruct n as [|n]; [reflexivity|].
  induction n as [|n IH].
  - change (insert_unique x (np_unique l) = x :: np_unique l).
    apply insert_unique_below. exact Hu.
  - change (np_unique (replicate (S (S n)) x ++ l))
      with (insert_unique x (np_unique (replicate (S n) x ++ l))).
    rewrite IH. apply insert_unique_head.
Qed.

End SplitPieces.

(** ** [split_joint_matrix] on the output of [make_joint_matrix] *)

Section SplitJoin.

(** [split_joint_matrix] on a table whose row labels all have two pieces,
    the first one an integer. *)
Lemma split_joint_matrix_keys jmat keys tags :
  keys <> [] ->
  split_sep <$> index jmat = (fun p => [fst p; snd p]) <$> keys ->
  map_result astype_int (fst <$> keys) = Ok tags ->
  split_joint_matrix jmat
  = Ok (sub_table jmat tags (snd <$> keys) <$> np_unique tags).
Proof.
  intros Hne Hkeys Htags. unfold split_joint_matrix.
  rewrite Hkeys, (zip_star_pairs _ Hne), Htags. reflexivity.
Qed.

Lemma split_joint_index cnts :
  no_sep_labels cnts ->
  forall k,
    split_sep <$> joint_index_from k cnts
    = (fun p => [fst p; snd p]) <$> keys_from k cnts.
Proof.
  induction 1 as [|t cnts Ht _ IH]; intros k; [reflexivity|].
  cbn [joint_index_from keys_from]. rewrite !fmap_app, IH. f_equal.
  rewrite <- !list_fmap_compose. apply Forall_fmap_ext_1.
  eapply Forall_impl; [exact Ht|]. intros x Hx. simpl.
  apply split_sep_key; [apply has_sep_str|exact Hx].
Qed.

Lemma names_keys_from cnts : forall k,
  snd <$> keys_from k cnts = concat (index <$> cnts).
Proof.
  induction cnts as [|t cnts IH]; intros k; [reflexivity|].
  cbn [keys_from]. rewrite fmap_app, IH, <- list_fmap_compose.
  rewrite fmap_cons, concat_cons. f_equal. apply list_fmap_id.
Qed.

Lemma tags_keys_from cnts : forall k,
  (Z.of_nat (k + length cnts) <= int64_max + 1)%Z ->
  map_result astype_int (fst <$> keys_from k cnts) = Ok (tags_from k cnts).
Proof.
  induction cnts as [|t cnts IH]; intros k Hk; [reflexivity|].
  cbn [keys_from tags_from]. simpl length in Hk. rewrite fmap_app.
  apply map_result_app; [|apply IH; lia].
  rewrite <- list_fmap_compose.
  rewrite (const_fmap _ (index t) (str k)) by reflexivity.
  apply map_result_replicate, astype_int_str. lia.
Qed.

Lemma keys_from_nil cnts : forall k,
  keys_from k cnts = [] -> Forall (fun t => index t = []) cnts.
Proof.
  induction cnts as [|t cnts IH]; intros k; [constructor|].
  cbn [keys_from]. intros [H1 H2]%app_eq_nil.
  constructor; [|eapply IH; exact H2].
  apply fmap_nil_inv in H1. exact H1.
Qed.

Lemma keys_from_joint_index cnts : forall k,
  keys_from k cnts = [] <-> joint_index_from k cnts = [].
Proof.
  induction cnts as [|t cnts IH]; intros k; [tauto|].
  cbn [keys_from joint_index_from].
  split; intros [H1 H2]%app_eq_nil; apply fmap_nil_inv in H1;
    rewrite H1; apply IH in H2; rewrite H2; reflexivity.
Qed.

Lemma tags_from_ge cnts : forall k,
  Forall (fun y => (Z.of_nat k <= y)%Z) (tags_from k cnts).
Proof.
  induction cnts as [|t cnts IH]; intros k; [constructor|].
  cbn [tags_from]. apply Forall_app. split.
  - apply Forall_forall. intros y [-> _]%elem_of_replicate. lia.
  - eapply Forall_impl; [apply (IH (S k))|]. intros; simpl in *; lia.
Qed.

Lemma np_unique_tags_from cnts : forall k,
  np_unique (tags_from k cnts) = sources_from k cnts.
Proof.
  induction cnts as [|t cnts IH]; intros k; [reflexivity|].
  cbn [tags_from sources_from]. rewrite np_unique_replicate, IH; [reflexivity|].
  eapply Forall_impl; [apply (tags_from_ge cnts (S k))|].
  intros; simpl in *; lia.
Qed.

Lemma length_tags_from cnts : forall k,
  length (tags_from k cnts) = sum_list (nrows <$> cnts).
Proof.
  induction cnts as [|t cnts IH]; intros k; [reflexivity|].
  cbn [tags_from]. rewrite length_app, length_replicate, IH. reflexivity.
Qed.

(** Selecting the rows tagged [j] yields the rows of source [j]. *)
Lemma mask_tags_from {A : Type} (f : DataFrame -> list A) cnts :
  Forall (fun t => length (f t) = nrows t) cnts ->
  forall k j,
    mask ((fun i => Z.eqb i (Z.of_nat j)) <$> tags_from k cnts)
         (concat (f <$> cnts))
    = if decide (k <= j) then from_option f [] (cnts !! (j - k)) else [].
Proof.
  induction 1 as [|t cnts Ht _ IH]; intros k j.
  - simpl. destruct (decide (k <= j)); reflexivity.
  - cbn [tags_from]. rewrite fmap_cons, concat_cons, fmap_app, fmap_replicate.
    rewrite mask_app by (rewrite length_replicate; congruence).
    rewrite IH. destruct (Z.eqb_spec (Z.of_nat k) (Z.of_nat j)) as [E|E].
    + apply Nat2Z.inj in E. subst j.
      rewrite <- Ht, mask_replicate_true.
      rewrite decide_False by lia. rewrite decide_True by lia.
      rewrite Nat.sub_diag, app_nil_r. reflexivity.
    + rewrite mask_replicate_false. simpl app.
      destruct (decide (S k <= j)) as [Hle|Hnle].
      * rewrite decide_True by lia.
        replace (j - k) with (S (j - S k)) by lia. reflexivity.
      * rewrite decide_False by lia. reflexivity.
Qed.

Lemma replace_sep_labels l :
  Forall (fun x => has_sep x = false) l -> replace_sep <$> l = l.
Proof.
  intros H. rewrite <- (list_fmap_id l) at 2. apply Forall_fmap_ext_1.
  eapply Forall_impl; [exact H|]. intros x Hx. apply replace_sep_no_sep, Hx.
Qed.

(** The table built for the tag [j] is the table of source [j]. *)
Lemma sub_table_joint cnts j t :
  Forall (fun t => length (values t) = nrows t) cnts ->
  no_sep_labels cnts ->
  cnts !! j = Some t ->
  sub_table (joint cnts) (tags_from 0 cnts) (concat (index <$> cnts))
            (Z.of_nat j)
  = split_table (joint_genes cnts) t.
Proof.
  intros Hshape Hsep Ht. unfold sub_table, split_table, joint.
  cbn [columns values].
  rewrite (mask_tags_from index) by (apply Forall_forall; reflexivity).
  unfold joint_values.
  rewrite (mask_tags_from (joint_block (joint_genes cnts)));
    [|eapply Forall_impl; [exact Hshape|];
      intros t' Ht'; rewrite length_joint_block; exact Ht'].
  rewrite decide_True by lia. rewrite Nat.sub_0_r, Ht. simpl.
  f_equal. apply replace_sep_labels.
  unfold no_sep_labels in Hsep. rewrite Forall_forall in Hsep.
  apply Hsep. eapply list_elem_of_lookup_2, Ht.
Qed.

Lemma sources_tables {B : Type} (F : Z -> B) (G : DataFrame -> B) all :
  (forall j t, all !! j = Some t -> F (Z.of_nat j) = G t) ->
  forall rest k,
    drop k all = rest ->
    F <$> sources_from k rest
    = G <$> filter (fun t => nrows t <> 0) rest.
Proof.
  intros HFG. induction rest as [|t rest IH]; intros k Hk; [reflexivity|].
  assert (all !! k = Some t) as Ht.
  { rewrite <- (Nat.add_0_r k), <- lookup_drop, Hk. reflexivity. }
  assert (drop (S k) all = rest) as Hk'.
  { rewrite (drop_S _ _ _ Ht) in Hk. congruence. }
  cbn [sources_from]. rewrite fmap_app, (IH _ Hk'), filter_cons.
  destruct (Nat.eqb_spec (nrows t) 0) as [E|E].
  - rewrite decide_False by lia. reflexivity.
  - rewrite decide_True by lia. simpl. rewrite (HFG _ _ Ht). reflexivity.
Qed.

(** The tables that [split_joint_matrix] returns for a joint matrix: one
    for each source that has a row. *)
Lemma split_joint cnts :
  Forall (fun t => length (values t) = nrows t) cnts ->
  no_sep_labels cnts ->
  (Z.of_nat (length cnts) <= int64_max)%Z ->
  Exists (fun t => nrows t <> 0) cnts ->
  split_joint_matrix (joint cnts)
  = Ok (split_table (joint_genes cnts)
          <$> filter (fun t => nrows t <> 0) cnts).
Proof.
  intros Hshape Hsep Hlen Hrows.
  rewrite (split_joint_matrix_keys _ (keys_from 0 cnts) (tags_from 0 cnts)).
  - rewrite names_keys_from, np_unique_tags_from. f_equal.
    apply (sources_tables _ _ cnts); [|reflexivity].
    intros j t Ht. apply sub_table_joint; assumption.
  - intros E. apply keys_from_nil in E.
    apply Exists_exists in Hrows as (t & Ht & Hr).
    rewrite Forall_forall in E. apply Hr. unfold nrows.
    rewrite (E _ Ht). reflexivity.
  - apply split_joint_index, Hsep.
  - apply tags_keys_from. lia.
Qed.

(** Without any row, the unpacking of [zip] fails. *)
Lemma split_joint_no_rows cnts :
  Forall (fun t => index t = []) cnts ->
  split_joint_matrix (joint cnts) = Raise UnboundLocalError.
Proof.
  intros H. unfold split_joint_matrix, joint. cbn [index].
  assert (joint_index_from 0 cnts = []) as ->; [|reflexivity].
  generalize 0. induction H as [|t cnts Ht _ IH]; intros k; [reflexivity|].
  cbn [joint_index_from]. rewrite Ht, IH. reflexivity.
Qed.

End SplitJoin.

(** ** Cells of the joint matrix *)

Section Cells.

Lemma set_row_cons p pos v vrow row :
  set_row (p :: pos) (v :: vrow) row = set_row pos vrow (<[p := v]> row).
Proof. reflexivity. Qed.

Lemma length_set_row pos : forall vrow row,
  length (set_row pos vrow row) = length row.
Proof.
  induction pos as [|p pos IH]; intros [|v vrow] row; try reflexivity.
  rewrite set_row_cons, IH. apply length_insert.
Qed.











Lemma joint_index_lookup cnts t r : forall k0 k,
  cnts !! k = Some t -> r < nrows t ->
  joint_index_from k0 cnts !! (rows_before cnts k + r)
  = row_key (k0 + k) <$> index t !! r.
Proof.
  induction cnts as [|t0 cnts IH]; intros k0 k Ht Hr; [discriminate|].
  cbn [joint_index_from]. destruct k as [|k].
  - injection Ht as ->. unfold rows_before. simpl.
    rewrite lookup_app_l by (rewrite length_fmap; exact Hr).
    rewrite list_lookup_fmap, Nat.add_0_r. reflexivity.
  - simpl in Ht.
    change (rows_before (t0 :: cnts) (S k))
      with (nrows t0 + rows_before cnts k).
    rewrite lookup_app_r by (rewrite length_fmap; unfold nrows; lia).
    rewrite length_fmap.
    replace (nrows t0 + rows_before cnts k + r - length (index t0))
      with (rows_before cnts k + r) by (unfold nrows; lia).
    rewrite (IH (S k0) k Ht Hr).
    replace (S k0 + k) with (k0 + S k) by lia. reflexivity.
Qed.

End Cells.

(** ** Row labels of a joint matrix *)

Section Keys.

(** The first piece of a split is empty or starts like the string. *)
Lemma split_sep_head_char c s p ps :
  split_sep (String c s) = p :: ps ->
  p = EmptyString \/ exists p', p = String c p'.
Proof.
  rewrite split_sep_unfold. destruct s as [|d s'].
  - simpl. intros [= <- _]. eauto.
  - destruct (is_sep c d); [intros [= <- _]; auto|].
    destruct (split_sep (String d s')) as [|q qs]; simpl;
      intros [= <- _]; eauto.
Qed.

Lemma split_sep_pieces_step s :
  Forall (fun p => has_sep p = false) (split_sep s)
  /\ forall c, Forall (fun p => has_sep p = false) (split_sep (String c s)).
Proof.
  induction s as [|d s' [IH1 IH2]].
  - split; [repeat constructor|]. intros c. repeat constructor.
  - split; [apply IH2|]. intros c. rewrite split_sep_unfold.
    destruct (is_sep c d) eqn:Hcd; [constructor; [reflexivity|exact IH1]|].
    specialize (IH2 d).
    destruct (split_sep (String d s')) as [|p ps] eqn:E;
      [repeat constructor|].
    apply Forall_cons in IH2 as [Hp Hps]. simpl.
    constructor; [|exact Hps].
    destruct (split_sep_head_char _ _ _ _ E) as [->|[p' ->]];
      [reflexivity|].
    rewrite has_sep_unfold, Hcd, Hp. reflexivity.
Qed.

(** No piece of a split contains the separator. *)
Lemma split_sep_pieces s : Forall (fun p => has_sep p = false) (split_sep s).
Proof. apply split_sep_pieces_step. Qed.



Lemma map_result_fmap {A B C : Type} (f : B -> result C) (g : A -> B)
    (h : A -> C) (l : list A) :
  Forall (fun x => f (g x) = Ok (h x)) l ->
  map_result f (g <$> l) = Ok (h <$> l).
Proof.
  induction 1 as [|x l Hx _ IH]; [reflexivity|].
  rewrite !fmap_cons. simpl. rewrite Hx. simpl. rewrite IH. reflexivity.
Qed.

Lemma mask_fmap {A B : Type} (q : A -> bool) (f : A -> B) (l : list A) :
  mask (q <$> l) (f <$> l) = f <$> filter (fun r => q r = true) l.
Proof.
  induction l as [|x l IH]; [reflexivity|].
  rewrite !fmap_cons, filter_cons. simpl. rewrite IH.
  destruct (q x) eqn:E.
  - rewrite decide_True by reflexivity. reflexivity.
  - rewrite decide_False by discriminate. reflexivity.
Qed.






End Keys.

(** * The properties of the specification *)

Section RoundTrip.

Lemma filter_all {A : Type} (P : A -> Prop) `{forall x, Decision (P x)}
    (l : list A) :
  Forall P l -> filter P l = l.
Proof.
  induction 1 as [|x l Hx _ IH]; [reflexivity|].
  rewrite filter_cons, decide_True by exact Hx. rewrite IH. reflexivity.
Qed.

Lemma index_split_tables genes (cnts : list DataFrame) :
  index <$> (split_table genes <$> filter (fun t => nrows t <> 0) cnts)
  = filter (fun l => l <> []) (index <$> cnts).
Proof.
  induction cnts as [|t cnts IH]; [reflexivity|].
  rewrite fmap_cons, !filter_cons.
  destruct (decide (nrows t <> 0)) as [Hr|Hr].
  - rewrite decide_True by (intros E; apply Hr; unfold nrows; rewrite E;
                            reflexivity).
    rewrite !fmap_cons, IH. reflexivity.
  - rewrite decide_False; [exact IH|].
    intros E. apply E. unfold nrows in Hr.
    destruct (index t); [reflexivity|]. exfalso. apply Hr. discriminate.
Qed.


End RoundTrip.




(** C2.  The scenario of the specification: the joint matrix of [T0] and
    [T1], and the two tables that [split_joint_matrix] returns for it. *)
Theorem scenario_join_split :
  make_joint_matrix [scenario_T0; scenario_T1] = Ok scenario_joint
  /\ split_joint_matrix scenario_joint
     = Ok [ {| index := ["a"; "b"]%string;
               columns := ["g1"; "g2"; "g3"]%string;
               values := [[1; 2; 0]; [3; 4; 0]]%Z |};
            {| index := ["x"]%string;
               columns := ["g1"; "g2"; "g3"]%string;
               values := [[0; 5; 6]]%Z |} ].
Proof. split; vm_compute; reflexivity. Qed.



(** C4.  The columns of the joint matrix are the columns of the input
    tables: every column of the joint matrix is a column of some table,
    every column of a table is a column of the joint matrix, and no column
    occurs twice. *)
Theorem joint_columns (cnts : list DataFrame) :
  Forall wf_table cnts ->
  exists jmat,
    make_joint_matrix cnts = Ok jmat
    /\ NoDup (columns jmat)
    /\ forall g, g ∈ columns jmat <-> exists t, t ∈ cnts /\ g ∈ columns t.
Proof.
  intros Hwf. exists (joint cnts).
  split; [apply make_joint_matrix_joint, wf_table_shape, Hwf|]. split.
  - apply joint_genes_NoDup. eapply Forall_impl; [exact Hwf|].
    intros t (_ & _ & Ht). exact Ht.
  - intros g. apply elem_of_joint_genes.
Qed.

Lemma joint_columns_witness :
  exists jmat,
    make_joint_matrix [scenario_T0; scenario_T1] = Ok jmat
    /\ NoDup (columns jmat)
    /\ forall g,
         g ∈ columns jmat
         <-> exists t, t ∈ [scenario_T0; scenario_T1] /\ g ∈ columns t.
Proof. apply joint_columns. compute_done. Defined.

Section RowKeys.

Lemma str_inj k k' : str k = str k' -> k = k'.
Proof.
  intros H. pose proof (py_int_str k) as Hk. rewrite H, py_int_str in Hk.
  injection Hk as Hk. lia.
Qed.

(** The text before the first separator of a composite row key is the
    numeral of its source. *)
Lemma prefix_row_key k x : hd ""%string (split_sep (row_key k x)) = str k.
Proof.
  unfold row_key. rewrite split_sep_app by apply has_sep_str. reflexivity.
Qed.

Lemma elem_of_joint_index lbl cnts : forall k0,
  lbl ∈ joint_index_from k0 cnts ->
  exists k t x,
    cnts !! k = Some t /\ x ∈ index t /\ lbl = row_key (k0 + k) x.
Proof.
  induction cnts as [|t cnts IH]; intros k0 H.
  - apply elem_of_nil in H. contradiction.
  - cbn [joint_index_from] in H. apply elem_of_app in H as [H|H].
    + apply list_elem_of_fmap in H as (x & -> & Hx).
      exists 0, t, x. rewrite Nat.add_0_r. auto.
    + destruct (IH _ H) as (k & t' & x & Ht' & Hx & ->).
      exists (S k), t', x. replace (k0 + S k) with (S k0 + k) by lia. auto.
Qed.


End RowKeys.

(** C5.  For every list of tables whose row labels do not contain the
    separator, the tables that [split_joint_matrix] returns for the joint
    matrix carry the original row labels, character for character: their
    lists of labels are those of the sources that have a row, in the order
    of the sources.  [split_joint_matrix] returns whenever some table has a
    row. *)
Theorem labels_round_trip (cnts : list DataFrame) :
  wf_tables cnts -> no_sep_labels cnts ->
  exists jmat,
    make_joint_matrix cnts = Ok jmat
    /\ match split_joint_matrix jmat with
       | Ok res => index <$> res = filter (fun l => l <> []) (index <$> cnts)
       | Raise _ => Forall (fun t => index t = []) cnts
       end.
Proof.
  intros [Hwf Hlen] Hsep. pose proof (wf_table_shape _ Hwf) as Hshape.
  exists (joint cnts). split; [apply make_joint_matrix_joint, Hshape|].
  destruct (decide (Exists (fun t => nrows t <> 0) cnts)) as [Hex|Hno].
  - rewrite split_joint by assumption. apply index_split_tables.
  - assert (Forall (fun t => index t = []) cnts) as Hall.
    { apply not_Exists_Forall in Hno; [|intros; apply _].
      eapply Forall_impl; [exact Hno|]. intros t Ht. simpl in Ht.
      destruct (index t) eqn:E; [reflexivity|].
      exfalso. apply Ht. unfold nrows. rewrite E. discriminate. }
    rewrite (split_joint_no_rows _ Hall). exact Hall.
Qed.

Lemma labels_round_trip_witness :
  exists jmat,
    make_joint_matrix [scenario_T0; header_only; scenario_T1] = Ok jmat
    /\ match split_joint_matrix jmat with
       | Ok res =>
           index <$> res
           = filter (fun l => l <> [])
               (index <$> [scenario_T0; header_only; scenario_T1])
       | Raise _ =>
           Forall (fun t => index t = [])
             [scenario_T0; header_only; scenario_T1]
       end.
Proof. apply labels_round_trip; compute_done. Defined.

(** C6, in the form that holds of the code.  [make_joint_matrix] applied
    to the empty list raises nothing: it returns the table without rows and
    columns. *)
Theorem join_empty_returns : make_joint_matrix [] = Ok empty_table.
Proof. reflexivity. Qed.

(** C6 does not hold in the words of the specification: no exception is
    raised for the empty list. *)
Lemma empty_list_counterexample : ~ raises (make_joint_matrix []).
Proof. intros [e He]. vm_compute in He. discriminate. Qed.

(** C9, in the form that holds of the code.  [make_joint_matrix] does not
    inspect the row labels.  When a row label of source [k] contains the
    separator, the joint matrix is returned all the same; the row is
    labelled [str(k) & '&-' & label], which then has more than two pieces
    between separators. *)
Theorem join_keeps_sep_labels (cnts : list DataFrame) (k r : nat)
    (t : DataFrame) (x : string) :
  Forall wf_table cnts ->
  cnts !! k = Some t -> index t !! r = Some x -> has_sep x = true ->
  exists jmat,
    make_joint_matrix cnts = Ok jmat
    /\ index jmat !! (rows_before cnts k + r) = Some (row_key k x)
    /\ 2 < length (split_sep (row_key k x)).
Proof.
  intros Hwf Ht Hx Hsep. exists (joint cnts).
  split; [apply make_joint_matrix_joint, wf_table_shape, Hwf|]. split.
  - cbn [joint index].
    rewrite (joint_index_lookup cnts t r 0 k Ht), Hx; [reflexivity|].
    eapply lookup_lt_Some, Hx.
  - unfold row_key. rewrite split_sep_app by apply has_sep_str.
    destruct (split_sep_has_sep _ Hsep) as (p & q & qs & ->). simpl. lia.
Qed.

Lemma join_keeps_sep_labels_witness :
  exists jmat,
    make_joint_matrix [sep_in_label] = Ok jmat
    /\ index jmat !! 0 = Some "0&-a&-b"%string
    /\ 2 < length (split_sep "0&-a&-b").
Proof.
  apply (join_keeps_sep_labels [sep_in_label] 0 0 sep_in_label "a&-b");
    [compute_done|reflexivity..].
Defined.

(** C9 does not hold in the words of the specification: the table
    [sep_in_label] has a row label with the separator, and no exception is
    raised. *)
Lemma sep_label_counterexample :
  (exists x, x ∈ index sep_in_label /\ has_sep x = true)
  /\ wf_tables [sep_in_label]
  /\ ~ raises (make_joint_matrix [sep_in_label]).
Proof.
  split; [exists "a&-b"%string; split; [left|reflexivity]|].
  split; [compute_done|].
  intros [e He]. vm_compute in He. discriminate.
Qed.








(** * Further properties of the module *)

(** ** Composite row keys *)

Section RowKeyCodec.

Lemma append_inj_r (p x y : string) : p +:+ x = p +:+ y -> x = y.
Proof.
  induction p as [|c p IH]; simpl; [auto|].
  intros [= H]. exact (IH H).
Qed.

Lemma row_key_eq (k k' : nat) (x x' : string) :
  row_key k x = row_key k' x' -> k = k' /\ x = x'.
Proof.
  intros H. assert (k = k') as <-.
  { apply str_inj.
    rewrite <- (prefix_row_key k x), <- (prefix_row_key k' x').
    rewrite H. reflexivity. }
  split; [reflexivity|]. unfold row_key in H. eapply append_inj_r, H.
Qed.

Lemma parse_key_row_key (k : nat) (x : string) :
  has_sep x = false -> (Z.of_nat k <= int64_max)%Z ->
  parse_key (row_key k x) = Some (Z.of_nat k, x).
Proof.
  intros Hx Hk. unfold parse_key, row_key.
  rewrite (split_sep_key _ _ (has_sep_str k) Hx), (astype_int_str _ Hk).
  reflexivity.
Qed.

End RowKeyCodec.

(** X1.  The encoding of a source index and a row name into a row label is
    injective, whatever the row name contains: two rows get the same label
    only if they have the same source and the same name. *)
Theorem row_key_inj (k k' : nat) (x x' : string) :
  row_key k x = row_key k' x' -> k = k' /\ x = x'.
Proof. apply row_key_eq. Qed.

Lemma row_key_inj_witness :
  0 = 0 /\ "a&-b"%string = "a&-b"%string.
Proof. apply (row_key_inj 0 0 "a&-b" "a&-b"). reflexivity. Defined.

(** X2.  Decoding is a left inverse of encoding: a label built for source
    [k] and a name without separator splits into exactly two pieces, the
    first is read back as [k] and the second is the name. *)
Theorem parse_row_key (k : nat) (x : string) :
  has_sep x = false -> (Z.of_nat k <= int64_max)%Z ->
  parse_key (row_key k x) = Some (Z.of_nat k, x).
Proof. apply parse_key_row_key. Qed.

Lemma parse_row_key_witness :
  parse_key (row_key 12 "spot 3x7") = Some (12%Z, "spot 3x7"%string).
Proof. apply (parse_row_key 12 "spot 3x7"); [reflexivity|compute_done]. Defined.

(** ** The joint matrix as a table *)

Section JointTable.

Lemma joint_index_from_NoDup cnts : forall k,
  Forall (fun t => NoDup (index t)) cnts -> NoDup (joint_index_from k cnts).
Proof.
  induction cnts as [|t cnts IH]; intros k H; [constructor|].
  apply Forall_cons in H as [Ht H]. cbn [joint_index_from].
  apply NoDup_app. split; [|split; [|apply IH, H]].
  - apply NoDup_fmap_2_strong; [|exact Ht].
    intros x y _ _ E. apply row_key_eq in E. tauto.
  - intros lbl (x & -> & _)%list_elem_of_fmap Hin.
    apply elem_of_joint_index in Hin as (j & t' & y & _ & _ & E).
    apply row_key_eq in E as [E _]. lia.
Qed.

Lemma joint_values_rows genes cnts :
  Forall (fun row => length row = length genes) (joint_values genes cnts).
Proof.
  unfold joint_values. apply Forall_concat, Forall_fmap, Forall_forall.
  intros t _. unfold joint_block. apply Forall_fmap, Forall_forall.
  intros vrow _. simpl. rewrite length_set_row. apply length_replicate.
Qed.

Lemma joint_wf_table cnts : Forall wf_table cnts -> wf_table (joint cnts).
Proof.
  intros Hwf. pose proof (wf_table_shape _ Hwf) as Hshape.
  unfold wf_table, joint. cbn [index columns values]. split; [|split].
  - rewrite (length_joint_values _ _ Hshape), length_joint_index.
    reflexivity.
  - apply joint_values_rows.
  - apply joint_genes_NoDup. eapply Forall_impl; [exact Hwf|].
    intros t (_ & _ & Ht). exact Ht.
Qed.

Lemma joint_well_formed cnts :
  wf_tables cnts -> no_sep_labels cnts -> well_formed_joint (joint cnts).
Proof.
  intros [Hwf Hlen] Hsep. split; [apply (joint_wf_table _ Hwf)|].
  cbn [joint index]. apply Forall_forall. intros lbl Hlbl.
  apply elem_of_joint_index in Hlbl as (k & t & x & Ht & Hx & ->).
  rewrite parse_key_row_key; [eexists; reflexivity| |].
  - unfold no_sep_labels in Hsep. rewrite Forall_forall in Hsep.
    specialize (Hsep t (list_elem_of_lookup_2 _ _ _ Ht)).
    rewrite Forall_forall in Hsep. apply Hsep, Hx.
  - apply lookup_lt_Some in Ht. lia.
Qed.

End JointTable.

(** X3.  The row labels of the joint matrix are distinct as soon as the row
    labels of each input table are distinct: equal labels in different
    tables get different source prefixes. *)
Theorem joint_index_NoDup (cnts : list DataFrame) :
  Forall wf_table cnts -> Forall (fun t => NoDup (index t)) cnts ->
  exists jmat, make_joint_matrix cnts = Ok jmat /\ NoDup (index jmat).
Proof.
  intros Hwf Hnd. exists (joint cnts).
  split; [apply make_joint_matrix_joint, wf_table_shape, Hwf|].
  apply joint_index_from_NoDup, Hnd.
Qed.

Lemma joint_index_NoDup_witness :
  exists jmat,
    make_joint_matrix [scenario_T1; scenario_T1] = Ok jmat
    /\ NoDup (index jmat).
Proof. apply joint_index_NoDup; compute_done. Defined.



(** X5.  The output of [make_joint_matrix] meets what [split_joint_matrix]
    expects of a joint matrix: when no row label of the inputs contains the
    separator, every row label of the joint matrix has exactly two pieces
    and the first is read back as an integer. *)
Theorem joint_is_well_formed (cnts : list DataFrame) :
  wf_tables cnts -> no_sep_labels cnts ->
  exists jmat, make_joint_matrix cnts = Ok jmat /\ well_formed_joint jmat.
Proof.
  intros Hwf Hsep. exists (joint cnts).
  split; [apply make_joint_matrix_joint, wf_table_shape, Hwf|].
  apply joint_well_formed; assumption.
Qed.

Lemma joint_is_well_formed_witness :
  exists jmat,
    make_joint_matrix [scenario_T0; scenario_T1] = Ok jmat
    /\ well_formed_joint jmat.
Proof. apply joint_is_well_formed; compute_done. Defined.

(** ** The order of the columns *)

Section ColumnOrder.

Lemma index_union_nil_l c : index_union [] c = c.
Proof.
  unfold index_union. destruct (bool_decide (c = [])) eqn:E; simpl.
  - apply bool_decide_eq_true in E. congruence.
  - destruct (bool_decide ([] = c)) eqn:E'; simpl; [|reflexivity].
    apply bool_decide_eq_true in E'. exact E'.
Qed.

Lemma index_union_same c : index_union c c = c.
Proof.
  unfold index_union. rewrite (bool_decide_eq_true_2 (c = c) eq_refl).
  rewrite orb_true_r. reflexivity.
Qed.

Lemma fold_union_same c ls :
  Forall (fun l => l = c) ls -> fold_left index_union ls c = c.
Proof.
  induction 1 as [|l ls -> _ IH]; [reflexivity|].
  simpl. rewrite index_union_same. exact IH.
Qed.

Lemma joint_genes_same c (cnts : list DataFrame) :
  cnts <> [] -> Forall (fun t => columns t = c) cnts -> joint_genes cnts = c.
Proof.
  intros Hne H. destruct H as [|t cnts Ht H]; [congruence|].
  unfold joint_genes. rewrite fmap_cons. simpl.
  rewrite Ht, index_union_nil_l. apply fold_union_same.
  apply Forall_fmap. exact H.
Qed.

Lemma get_loc_lookup c l : forall i,
  NoDup l -> l !! i = Some c -> get_loc c l = Some i.
Proof.
  induction l as [|g gs IH]; intros i Hnd Hi; [discriminate|].
  apply NoDup_cons in Hnd as [Hg Hnd]. simpl.
  destruct i as [|i]; simpl in Hi.
  - injection Hi as ->. rewrite String.eqb_refl. reflexivity.
  - destruct (String.eqb_spec g c) as [->|_].
    + exfalso. apply Hg. eapply list_elem_of_lookup_2, Hi.
    + rewrite (IH i Hnd Hi). reflexivity.
Qed.

Lemma positions_self c : NoDup c -> positions c c = seq 0 (length c).
Proof.
  intros Hnd. apply list_eq. intros i. unfold positions.
  rewrite list_lookup_fmap.
  destruct (c !! i) as [x|] eqn:E; simpl.
  - rewrite (get_loc_lookup _ _ _ Hnd E). simpl. symmetry.
    apply lookup_seq. split; [reflexivity|]. eapply lookup_lt_Some, E.
  - symmetry. apply lookup_ge_None. rewrite length_seq.
    apply lookup_ge_None in E. exact E.
Qed.

Lemma set_row_seq (v : list Z) : forall pre old post,
  length old = length v ->
  set_row (seq (length pre) (length v)) v (pre ++ old ++ post)
  = pre ++ v ++ post.
Proof.
  induction v as [|x v IH]; intros pre [|o old] post H;
    try discriminate; [reflexivity|].
  simpl in H. injection H as H. cbn [length seq]. rewrite set_row_cons.
  assert (<[length pre := x]> (pre ++ (o :: old) ++ post)
          = (pre ++ [x]) ++ old ++ post) as ->.
  { rewrite insert_app_r_alt by lia. rewrite Nat.sub_diag.
    rewrite <- app_assoc. reflexivity. }
  replace (S (length pre)) with (length (pre ++ [x]))
    by (rewrite length_app; simpl; lia).
  rewrite (IH _ _ _ H), <- app_assoc. reflexivity.
Qed.

(** A row that already has the columns [c] is copied as it is. *)
Lemma set_row_self c (v : list Z) :
  NoDup c -> length v = length c ->
  set_row (positions c c) v (replicate (length c) 0%Z) = v.
Proof.
  intros Hnd Hlen. rewrite (positions_self _ Hnd), <- Hlen.
  pose proof (set_row_seq v [] (replicate (length v) 0%Z) []) as H.
  simpl in H. rewrite !app_nil_r in H. apply H, length_replicate.
Qed.

Lemma joint_block_self c t :
  NoDup c -> columns t = c ->
  Forall (fun row => length row = length c) (values t) ->
  joint_block c t = values t.
Proof.
  intros Hnd Hc Hrows. unfold joint_block. rewrite Hc.
  rewrite <- (list_fmap_id (values t)) at 2. apply Forall_fmap_ext_1.
  eapply Forall_impl; [exact Hrows|]. intros v Hv. simpl.
  apply set_row_self; assumption.
Qed.

Lemma joint_values_self c cnts :
  NoDup c ->
  Forall (fun t => columns t = c
                   /\ Forall (fun row => length row = length c) (values t))
         cnts ->
  joint_values c cnts = concat (values <$> cnts).
Proof.
  intros Hnd H. unfold joint_values. f_equal. apply Forall_fmap_ext_1.
  eapply Forall_impl; [exact H|]. intros t [Hc Hrows]. simpl.
  apply joint_block_self; assumption.
Qed.

(** The invariant of the union of the column labels: the labels are
    still those of the first table that has columns, or they are sorted. *)
Lemma fold_union_order ls : forall acc seen,
  Forall (fun l => l = [] \/ l = acc) seen
  \/ (acc <> [] /\ StronglySorted OrderedTypeEx.String_as_OT.lt acc) ->
  let g := fold_left index_union ls acc in
  Forall (fun l => l = [] \/ l = g) (seen ++ ls)
  \/ StronglySorted OrderedTypeEx.String_as_OT.lt g.
Proof.
  induction ls as [|c ls IH]; intros acc seen Hinv; simpl.
  - rewrite app_nil_r. destruct Hinv as [H|[_ H]]; auto.
  - replace (seen ++ c :: ls) with ((seen ++ [c]) ++ ls)
      by (rewrite <- app_assoc; reflexivity).
    apply IH. unfold index_union.
    destruct (bool_decide (c = [])) eqn:E1; simpl.
    { apply bool_decide_eq_true in E1. destruct Hinv as [H|H]; [left|auto].
      apply Forall_app. split; [exact H|]. constructor; [auto|constructor]. }
    destruct (bool_decide (acc = c)) eqn:E2; simpl.
    { apply bool_decide_eq_true in E2. destruct Hinv as [H|H]; [left|auto].
      apply Forall_app. split; [exact H|]. constructor; [auto|constructor]. }
    destruct (bool_decide (acc = [])) eqn:E3.
    { apply bool_decide_eq_true in E3. subst acc.
      destruct Hinv as [H|[H _]]; [left|congruence].
      apply Forall_app. split; [|constructor; [auto|constructor]].
      eapply Forall_impl; [exact H|]. intros l [->| ->]; auto. }
    right. split; [|apply sort_unique_sorted].
    apply bool_decide_eq_false in E3. intros E.
    destruct acc as [|a acc]; [congruence|].
    assert (a ∈ sort_unique ((a :: acc) ++ c)) as Ha
      by (apply elem_of_sort_unique; left).
    rewrite E in Ha. apply elem_of_nil in Ha. exact Ha.
Qed.

End ColumnOrder.



(** X7.  The columns of the joint matrix come in one of two orders: either
    every table that has columns has exactly the list of columns of the
    joint matrix, which is then kept as it is, or the columns of the joint
    matrix are in strictly ascending order of their characters. *)
Theorem joint_column_order (cnts : list DataFrame) :
  Forall wf_table cnts ->
  exists jmat,
    make_joint_matrix cnts = Ok jmat
    /\ (Forall (fun t => columns t = [] \/ columns t = columns jmat) cnts
        \/ StronglySorted OrderedTypeEx.String_as_OT.lt (columns jmat)).
Proof.
  intros Hwf. exists (joint cnts).
  split; [apply make_joint_matrix_joint, wf_table_shape, Hwf|].
  cbn [joint columns]. unfold joint_genes.
  destruct (fold_union_order (columns <$> cnts) [] [] (or_introl (Forall_nil_2 _)))
    as [H|H]; [left|right; exact H].
  simpl in H. apply Forall_fmap in H. exact H.
Qed.

Lemma joint_column_order_witness :
  exists jmat,
    make_joint_matrix [scenario_T1; scenario_T0] = Ok jmat
    /\ (Forall (fun t => columns t = [] \/ columns t = columns jmat)
               [scenario_T1; scenario_T0]
        \/ StronglySorted OrderedTypeEx.String_as_OT.lt (columns jmat)).
Proof. apply joint_column_order. compute_done. Defined.

(** ** Joining the split tables again *)

Section Rejoin.

Lemma joint_index_from_split genes cnts : forall k,
  joint_index_from k (split_table genes <$> cnts) = joint_index_from k cnts.
Proof.
  induction cnts as [|t cnts IH]; intros k; [reflexivity|].
  rewrite fmap_cons. cbn [joint_index_from]. rewrite IH. reflexivity.
Qed.

Lemma joint_block_length genes t :
  Forall (fun row => length row = length genes) (joint_block genes t).
Proof.
  unfold joint_block. apply Forall_fmap, Forall_forall.
  intros vrow _. simpl. rewrite length_set_row. apply length_replicate.
Qed.

Lemma joint_split_tables genes cnts :
  cnts <> [] -> NoDup genes ->
  joint (split_table genes <$> cnts)
  = {| index := joint_index_from 0 cnts;
       columns := genes;
       values := joint_values genes cnts |}.
Proof.
  intros Hne Hnd. unfold joint.
  assert (joint_genes (split_table genes <$> cnts) = genes) as ->.
  { apply joint_genes_same; [destruct cnts; [congruence|discriminate]|].
    apply Forall_fmap, Forall_forall. intros t _. reflexivity. }
  rewrite joint_index_from_split. f_equal.
  rewrite joint_values_self; [|exact Hnd|].
  - rewrite <- list_fmap_compose. reflexivity.
  - apply Forall_fmap, Forall_forall. intros t _. simpl.
    split; [reflexivity|apply joint_block_length].
Qed.

End Rejoin.

(** X8.  Joining the tables that [split_joint_matrix] returned gives the
    joint matrix back: for tables that all have a row and whose row labels
    are free of the separator, [make_joint_matrix] of the split of the joint
    matrix is the joint matrix. *)
Theorem join_split_join (cnts : list DataFrame) :
  cnts <> [] -> wf_tables cnts -> no_sep_labels cnts ->
  Forall (fun t => nrows t <> 0) cnts ->
  exists jmat res,
    make_joint_matrix cnts = Ok jmat
    /\ split_joint_matrix jmat = Ok res
    /\ make_joint_matrix res = Ok jmat.
Proof.
  intros Hne [Hwf Hlen] Hsep Hrows.
  pose proof (wf_table_shape _ Hwf) as Hshape.
  exists (joint cnts), (split_table (joint_genes cnts) <$> cnts).
  split; [apply make_joint_matrix_joint, Hshape|]. split.
  - assert (Exists (fun t => nrows t <> 0) cnts) as Hex
      by (destruct Hrows; [congruence|left; assumption]).
    rewrite split_joint by assumption.
    rewrite (filter_all _ _ Hrows). reflexivity.
  - rewrite make_joint_matrix_joint.
    + rewrite joint_split_tables; [reflexivity|exact Hne|].
      apply joint_genes_NoDup. eapply Forall_impl; [exact Hwf|].
      intros t (_ & _ & Ht). exact Ht.
    + apply Forall_fmap. eapply Forall_impl; [exact Hshape|].
      intros t Ht. simpl. rewrite length_joint_block. exact Ht.
Qed.

Lemma join_split_join_witness :
  exists jmat res,
    make_joint_matrix [scenario_T0; scenario_T1] = Ok jmat
    /\ split_joint_matrix jmat = Ok res
    /\ make_joint_matrix res = Ok jmat.
Proof. apply join_split_join; [discriminate|compute_done..]. Defined.

(** ** When [split_joint_matrix] returns, and what *)

Section ZipStar.

Context {A : Type}.
Implicit Types (ls : list (list A)) (d : A).

Lemma mapM_head_nonempty d ls :
  Forall (fun l => l <> []) ls -> mapM head ls = Some (hd d <$> ls).
Proof.
  induction 1 as [|l ls Hl _ IH]; [reflexivity|].
  destruct l as [|x l]; [congruence|].
  cbn [mapM]. rewrite IH. reflexivity.
Qed.

Lemma mapM_head_empty ls :
  Exists (fun l => l = []) ls -> mapM head ls = None.
Proof.
  intros H. apply mapM_None_2. eapply Exists_impl; [exact H|].
  intros l ->. reflexivity.
Qed.

Lemma zip_star_aux_two {B : Type} d (bound : list B) ls :
  2 <= length bound ->
  Forall (fun l => 2 <= length l) ls ->
  Exists (fun l => length l = 2) ls ->
  zip_star_aux bound ls = [hd d <$> ls; (fun l => nth 1 l d) <$> ls].
Proof.
  intros Hb Hall Hex.
  destruct bound as [|b1 [|b2 bound]]; simpl in Hb; try lia.
  cbn [zip_star_aux].
  rewrite (mapM_head_nonempty d) by
    (eapply Forall_impl; [exact Hall|]; intros [|] ?; simpl in *;
     [lia|discriminate]).
  rewrite (mapM_head_nonempty d) by
    (apply Forall_fmap; eapply Forall_impl; [exact Hall|];
     intros [|? [|]] ?; simpl in *; [lia|lia|discriminate]).
  assert (hd d <$> (tail <$> ls) = (fun l => nth 1 l d) <$> ls) as ->.
  { rewrite <- list_fmap_compose. apply list_fmap_ext.
    intros i [|? [|]] _; reflexivity. }
  destruct bound as [|b3 bound]; [reflexivity|].
  cbn [zip_star_aux]. rewrite mapM_head_empty; [reflexivity|].
  apply Exists_fmap, Exists_fmap. eapply Exists_impl; [exact Hex|].
  intros [|? [|? [|]]] H; simpl in *; try discriminate. reflexivity.
Qed.

(** With at least two elements in every argument and exactly two in
    some, [zip] yields the first elements and the second elements. *)
Lemma zip_star_two d ls :
  Forall (fun l => 2 <= length l) ls ->
  Exists (fun l => length l = 2) ls ->
  zip_star ls = [hd d <$> ls; (fun l => nth 1 l d) <$> ls].
Proof.
  intros Hall Hex. destruct ls as [|l0 ls]; [inversion Hex|].
  unfold zip_star. apply zip_star_aux_two; [|exact Hall|exact Hex].
  apply Forall_cons in Hall as [H _]. exact H.
Qed.

Lemma length_zip_star_aux_min {B : Type} (bound : list B) : forall ls,
  (exists l, l ∈ ls /\ length l = length bound) ->
  exists l, l ∈ ls /\ length l = length (zip_star_aux bound ls).
Proof.
  induction bound as [|b bound IH]; intros ls (l0 & Hl0 & Hlen).
  - exists l0. auto.
  - cbn [zip_star_aux]. destruct (mapM head ls) as [hs|] eqn:E.
    + destruct (IH (tail <$> ls)) as (l' & Hl' & Hlen').
      { exists (tail l0). split; [apply list_elem_of_fmap; eauto|].
        destruct l0; simpl in *; [discriminate|lia]. }
      apply list_elem_of_fmap in Hl' as (l & -> & Hl).
      exists l. split; [exact Hl|].
      pose proof (mapM_head_length _ _ _ E Hl) as Hpos.
      destruct l; simpl in *; [lia|]. rewrite Hlen'. reflexivity.
    + apply mapM_None_1, Exists_exists in E as (l & Hl & Hnone).
      exists l. split; [exact Hl|]. destruct l; [reflexivity|discriminate].
Qed.

(** [zip] yields as many tuples as its shortest argument has elements. *)
Lemma length_zip_star_min ls :
  ls <> [] -> exists l, l ∈ ls /\ length l = length (zip_star ls).
Proof.
  destruct ls as [|l0 ls]; [congruence|]. intros _.
  apply length_zip_star_aux_min. exists l0. split; [left|reflexivity].
Qed.

End ZipStar.

Section SplitInGeneral.

Lemma astype_loose_tag lbl :
  (exists k, astype_int (label_prefix lbl) = Ok k) ->
  astype_int (label_prefix lbl) = Ok (loose_tag lbl).
Proof. intros [k H]. unfold loose_tag. rewrite H. reflexivity. Qed.

Lemma second_piece_no_sep lbl : has_sep (second_piece lbl) = false.
Proof.
  unfold second_piece. pose proof (split_sep_pieces lbl) as H.
  rewrite nth_lookup. destruct (split_sep lbl !! 1) as [p|] eqn:E;
    [|reflexivity].
  rewrite Forall_forall in H. apply H. eapply list_elem_of_lookup_2, E.
Qed.

(** The pieces that [split_joint_matrix] works with. *)
Lemma zip_star_labels (labels : list string) :
  Forall (fun lbl => 2 <= length (split_sep lbl)) labels ->
  Exists (fun lbl => length (split_sep lbl) = 2) labels ->
  zip_star (split_sep <$> labels)
  = [label_prefix <$> labels; second_piece <$> labels].
Proof.
  intros Hall Hex.
  rewrite (zip_star_two EmptyString)
    by (try apply Forall_fmap; try apply Exists_fmap; assumption).
  rewrite <- !list_fmap_compose. reflexivity.
Qed.

Lemma split_joint_matrix_splittable jmat :
  splittable jmat ->
  split_joint_matrix jmat
  = Ok (sub_table jmat (loose_tag <$> index jmat)
                  (second_piece <$> index jmat)
          <$> np_unique (loose_tag <$> index jmat)).
Proof.
  intros (Hall & Hex & Hnum). unfold split_joint_matrix.
  rewrite (zip_star_labels _ Hall Hex).
  rewrite (map_result_fmap astype_int label_prefix loose_tag).
  - reflexivity.
  - eapply Forall_impl; [exact Hnum|]. intros lbl H. simpl.
    apply astype_loose_tag, H.
Qed.

Lemma split_joint_matrix_Ok jmat res :
  split_joint_matrix jmat = Ok res -> splittable jmat.
Proof.
  unfold split_joint_matrix. intros H.
  destruct (zip_star (split_sep <$> index jmat))
    as [|idx [|name [|more rest]]] eqn:E; try discriminate.
  assert (Forall (fun lbl => 2 <= length (split_sep lbl)) (index jmat))
    as Hall.
  { apply Forall_forall. intros lbl Hlbl.
    assert (split_sep lbl ∈ split_sep <$> index jmat) as Hin
      by (apply list_elem_of_fmap; eauto).
    pose proof (length_zip_star _ _ Hin) as Hlen.
    rewrite E in Hlen. exact Hlen. }
  assert (Exists (fun lbl => length (split_sep lbl) = 2) (index jmat))
    as Hex.
  { destruct (length_zip_star_min (split_sep <$> index jmat))
      as (l & Hl & Hlen).
    - intros Hnil. rewrite Hnil in E. discriminate.
    - rewrite E in Hlen. apply list_elem_of_fmap in Hl as (lbl & -> & Hlbl).
      apply Exists_exists. eauto. }
  split; [exact Hall|]. split; [exact Hex|].
  rewrite (zip_star_labels _ Hall Hex) in E. injection E as <- <-.
  destruct (map_result astype_int (label_prefix <$> index jmat))
    as [tags|] eqn:Et; [|discriminate].
  apply map_result_Forall2 in Et. apply Forall_forall. intros lbl Hlbl.
  apply list_elem_of_lookup_1 in Hlbl as [i Hi].
  assert ((label_prefix <$> index jmat) !! i = Some (label_prefix lbl))
    as Hp by (rewrite list_lookup_fmap, Hi; reflexivity).
  destruct (Forall2_lookup_l _ _ _ _ _ Et Hp) as (k & _ & Hk). eauto.
Qed.

End SplitInGeneral.



Section SplitRows.

Lemma loose_rows_keys jmat :
  length (values jmat) = length (index jmat) ->
  fst <$> loose_rows jmat
  = (fun lbl => (loose_tag lbl, second_piece lbl)) <$> index jmat.
Proof.
  intros H. unfold loose_rows. apply fst_zip. rewrite length_fmap. lia.
Qed.

Lemma loose_rows_cells jmat :
  length (values jmat) = length (index jmat) ->
  row_cells <$> loose_rows jmat = values jmat.
Proof.
  intros H. unfold loose_rows. apply snd_zip. rewrite length_fmap. lia.
Qed.

Lemma loose_rows_sources jmat :
  length (values jmat) = length (index jmat) ->
  row_source <$> loose_rows jmat = loose_tag <$> index jmat.
Proof.
  intros H.
  change (row_source <$> loose_rows jmat)
    with ((fst ∘ fst) <$> loose_rows jmat).
  rewrite list_fmap_compose, (loose_rows_keys _ H), <- list_fmap_compose.
  reflexivity.
Qed.

Lemma loose_rows_names jmat :
  length (values jmat) = length (index jmat) ->
  row_name <$> loose_rows jmat = second_piece <$> index jmat.
Proof.
  intros H.
  change (row_name <$> loose_rows jmat)
    with ((snd ∘ fst) <$> loose_rows jmat).
  rewrite list_fmap_compose, (loose_rows_keys _ H), <- list_fmap_compose.
  reflexivity.
Qed.

Lemma mask_elem_of {B : Type} (sel : list bool) (l : list B) x :
  x ∈ mask sel l -> x ∈ l.
Proof.
  revert l. induction sel as [|b sel IH]; intros [|y l] H;
    try (apply elem_of_nil in H; contradiction).
  simpl in H. destruct b.
  - apply elem_of_cons in H as [->|H]; [left|right; apply IH, H].
  - right. apply IH, H.
Qed.

(** The table built for the tag [k]: the rows that carry the tag, under
    the text between their first and second separator. *)
Lemma sub_table_loose_rows jmat k :
  length (values jmat) = length (index jmat) ->
  sub_table jmat (loose_tag <$> index jmat) (second_piece <$> index jmat) k
  = {| index :=
         row_name <$> filter (fun r => row_source r = k) (loose_rows jmat);
       columns := columns jmat;
       values :=
         row_cells <$> filter (fun r => row_source r = k) (loose_rows jmat)
    |}.
Proof.
  intros Hshape. unfold sub_table.
  rewrite <- (loose_rows_sources _ Hshape), <- (loose_rows_names _ Hshape).
  rewrite <- (loose_rows_cells _ Hshape) at 1.
  rewrite <- list_fmap_compose.
  rewrite !(mask_fmap (fun r => Z.eqb (row_source r) k)).
  assert (filter (fun r => (row_source r =? k)%Z = true) (loose_rows jmat)
          = filter (fun r => row_source r = k) (loose_rows jmat)) as ->
    by (apply list_filter_iff; intros r; apply Z.eqb_eq).
  f_equal. rewrite <- list_fmap_compose. apply Forall_fmap_ext_1.
  apply Forall_forall. intros r Hr. simpl. apply replace_sep_no_sep.
  apply list_elem_of_filter in Hr as [_ Hr].
  assert (row_name r ∈ row_name <$> loose_rows jmat) as Hn
    by (apply list_elem_of_fmap; eauto).
  rewrite (loose_rows_names _ Hshape) in Hn.
  apply list_elem_of_fmap in Hn as (lbl & -> & _).
  apply second_piece_no_sep.
Qed.

(** Grouping a list by the values of a key loses no element. *)
Lemma group_by_key {B : Type} (f : B -> Z) (ks : list Z) : forall l,
  NoDup ks -> (forall r, r ∈ l -> f r ∈ ks) ->
  concat ((fun k => filter (fun r => f r = k) l) <$> ks) ≡ₚ l.
Proof.
  induction ks as [|k ks IH]; intros l Hnd Hin.
  - destruct l as [|r l]; [reflexivity|].
    specialize (Hin r (list_elem_of_here _ _)).
    apply elem_of_nil in Hin. contradiction.
  - apply NoDup_cons in Hnd as [Hk Hnd].
    rewrite fmap_cons, concat_cons.
    etrans; [|apply (filter_app_complement (fun r => f r = k) l)].
    apply Permutation_app; [reflexivity|].
    assert ((fun k' => filter (fun r => f r = k') l) <$> ks
            = (fun k' => filter (fun r => f r = k')
                           (filter (fun r => f r <> k) l)) <$> ks) as ->.
    { apply list_fmap_ext. intros i k' Hk'. simpl.
      rewrite list_filter_filter.
      apply list_filter_iff. intros r. split; [|tauto].
      intros <-. split; [reflexivity|]. intros E.
      apply Hk. rewrite <- E. eapply list_elem_of_lookup_2, Hk'. }
    apply (IH _ Hnd).
    intros r [Hr Hrl]%list_elem_of_filter.
    specialize (Hin r Hrl). apply elem_of_cons in Hin as [E|H]; tauto.
Qed.

Lemma sorted_Z_NoDup ks : StronglySorted Z.lt ks -> NoDup ks.
Proof.
  induction 1 as [|k ks _ IH Hk]; constructor; [|exact IH].
  intros Hin. rewrite Forall_forall in Hk. specialize (Hk _ Hin). lia.
Qed.

End SplitRows.

Section SplitPartition.

Lemma zip_fmap_pair {B C D : Type} (f : B -> C) (g : B -> D) (l : list B) :
  zip (f <$> l) (g <$> l) = (fun x => (f x, g x)) <$> l.
Proof.
  induction l as [|x l IH]; [reflexivity|].
  rewrite !fmap_cons. simpl. f_equal. exact IH.
Qed.

Lemma concat_fmap_fmap {B C K : Type} (f : B -> C) (g : K -> list B)
    (ks : list K) :
  concat ((fun k => f <$> g k) <$> ks) = f <$> concat (g <$> ks).
Proof.
  induction ks as [|k ks IH]; [reflexivity|].
  rewrite !fmap_cons, !concat_cons, fmap_app, IH. reflexivity.
Qed.

Lemma loose_rows_named jmat :
  (fun r => (row_name r, row_cells r)) <$> loose_rows jmat
  = zip (second_piece <$> index jmat) (values jmat).
Proof.
  unfold loose_rows. generalize (values jmat).
  induction (index jmat) as [|lbl labels IH]; intros [|v vs];
    try reflexivity.
  rewrite !fmap_cons. simpl. f_equal. apply IH.
Qed.

End SplitPartition.

(** X10.  [split_joint_matrix] loses no row and invents none: the rows of
    the returned tables, taken together, are the rows of the joint matrix
    up to their order, with their cells unchanged and each under the text
    between the first and the second separator of its joint label (further
    text after a second separator is dropped).  No returned table is
    without rows, and every returned table has the columns of the joint
    matrix. *)
Theorem split_partitions_rows (jmat : DataFrame) (res : list DataFrame) :
  length (values jmat) = length (index jmat) ->
  split_joint_matrix jmat = Ok res ->
  concat ((fun t => zip (index t) (values t)) <$> res)
    ≡ₚ zip (second_piece <$> index jmat) (values jmat)
  /\ Forall (fun t => index t <> []) res
  /\ Forall (fun t => columns t = columns jmat
                      /\ length (values t) = length (index t)) res.
Proof.
  intros Hshape Hres.
  pose proof (split_joint_matrix_splittable _ (split_joint_matrix_Ok _ _ Hres))
    as Hform.
  rewrite Hres in Hform. injection Hform as ->.
  set (ks := np_unique (loose_tag <$> index jmat)).
  assert (forall k, k ∈ ks -> exists r, r ∈ loose_rows jmat /\ row_source r = k)
    as Hks.
  { intros k Hk. unfold ks in Hk. apply (proj1 (elem_of_np_unique _ _)) in Hk.
    rewrite <- (loose_rows_sources _ Hshape) in Hk.
    apply list_elem_of_fmap in Hk as (r & -> & Hr). eauto. }
  split; [|split].
  - assert ((fun t => zip (index t) (values t))
              <$> (sub_table jmat (loose_tag <$> index jmat)
                             (second_piece <$> index jmat) <$> ks)
            = (fun k => (fun r => (row_name r, row_cells r))
                          <$> filter (fun r => row_source r = k)
                                     (loose_rows jmat)) <$> ks) as ->.
    { rewrite <- list_fmap_compose. apply list_fmap_ext. intros i k _.
      unfold compose. rewrite (sub_table_loose_rows _ _ Hshape).
      cbn [index values]. apply zip_fmap_pair. }
    rewrite concat_fmap_fmap, <- loose_rows_named.
    apply fmap_Permutation, group_by_key.
    + apply sorted_Z_NoDup, np_unique_sorted.
    + intros r Hr. apply elem_of_np_unique.
      rewrite <- (loose_rows_sources _ Hshape).
      apply list_elem_of_fmap. eauto.
  - apply Forall_fmap, Forall_forall. intros k Hk. unfold compose.
    rewrite (sub_table_loose_rows _ _ Hshape). cbn [index].
    destruct (Hks k Hk) as (r & Hr & Hk').
    intros E. apply fmap_nil_inv in E.
    assert (r ∈ filter (fun r => row_source r = k) (loose_rows jmat)) as Hin
      by (apply list_elem_of_filter; auto).
    rewrite E in Hin. apply elem_of_nil in Hin. exact Hin.
  - apply Forall_fmap, Forall_forall. intros k _. unfold compose.
    rewrite (sub_table_loose_rows _ _ Hshape). cbn [index columns values].
    split; [reflexivity|]. rewrite !length_fmap. reflexivity.
Qed.

Lemma split_partitions_rows_witness :
  exists res,
    split_joint_matrix shuffled_joint = Ok res
    /\ concat ((fun t => zip (index t) (values t)) <$> res)
         ≡ₚ zip (second_piece <$> index shuffled_joint) (values shuffled_joint)
    /\ Forall (fun t => index t <> []) res
    /\ Forall (fun t => columns t = columns shuffled_joint
                        /\ length (values t) = length (index t)) res.
Proof.
  eexists. split; [vm_compute; reflexivity|].
  apply (split_partitions_rows shuffled_joint); reflexivity.
Defined.

(** X11.  No row label that [split_joint_matrix] returns contains the
    separator: the labels are pieces of a split at the separator, so that
    the replacement of the separator by an underscore never changes one. *)
Theorem split_labels_have_no_sep (jmat : DataFrame) (res : list DataFrame) :
  split_joint_matrix jmat = Ok res ->
  Forall (fun t => Forall (fun x => has_sep x = false) (index t)) res.
Proof.
  intros Hres.
  pose proof (split_joint_matrix_splittable _ (split_joint_matrix_Ok _ _ Hres))
    as Hform.
  rewrite Hres in Hform. injection Hform as ->.
  apply Forall_fmap, Forall_forall. intros k _. unfold compose, sub_table.
  cbn [index]. apply Forall_fmap, Forall_forall. intros y Hy. unfold compose.
  apply mask_elem_of, list_elem_of_fmap in Hy as (lbl & -> & _).
  rewrite replace_sep_no_sep; apply second_piece_no_sep.
Qed.

Lemma split_labels_have_no_sep_witness :
  exists res,
    split_joint_matrix shuffled_joint = Ok res
    /\ Forall (fun t => Forall (fun x => has_sep x = false) (index t)) res.
Proof.
  eexists. split; [vm_compute; reflexivity|].
  apply (split_labels_have_no_sep shuffled_joint). reflexivity.
Defined.

(** ** The loss tracker *)

Section LossTrackerFacts.

Context {loss : Type}.
Variable str_loss : loss -> string.

Lemma string_app_cons (c : ascii) (a b : string) :
  String c a +:+ b = String c (a +:+ b).
Proof. reflexivity. Qed.

Lemma string_app_assoc (a b c : string) : (a +:+ b) +:+ c = a +:+ (b +:+ c).
Proof.
  induction a as [|x a IH]; [reflexivity|].
  rewrite !string_app_cons, IH. reflexivity.
Qed.

Lemma string_app_nil_r (a : string) : a +:+ "" = a.
Proof.
  induction a as [|x a IH]; [reflexivity|].
  rewrite string_app_cons, IH. reflexivity.
Qed.

Lemma lt_text_cons (x : loss) (xs : list loss) :
  lt_text str_loss (x :: xs) = ("," +:+ str_loss x) +:+ lt_text str_loss xs.
Proof.
  unfold lt_text. rewrite fmap_cons.
  destruct xs as [|y ys]; simpl; [|reflexivity].
  rewrite string_app_nil_r. reflexivity.
Qed.

Lemma lt_text_app (xs ys : list loss) :
  lt_text str_loss (xs ++ ys) = lt_text str_loss xs +:+ lt_text str_loss ys.
Proof.
  induction xs as [|x xs IH]; [reflexivity|].
  rewrite <- app_comm_cons, !lt_text_cons, IH. symmetry. apply string_app_assoc.
Qed.

(** What [write_history] appends for a history that is not empty. *)
Lemma join_text (x : loss) (xs : list loss) :
  "," +:+ String.concat "," (str_loss <$> (x :: xs)) = lt_text str_loss (x :: xs).
Proof.
  revert x. induction xs as [|y ys IH]; intros x.
  - rewrite lt_text_cons. simpl. rewrite string_app_nil_r. reflexivity.
  - rewrite lt_text_cons, <- IH. rewrite !fmap_cons.
    change (String.concat "," (str_loss x :: str_loss y :: (str_loss <$> ys)))
      with (str_loss x +:+ ("," +:+ String.concat "," (str_loss y :: (str_loss <$> ys)))).
    rewrite string_app_assoc. reflexivity.
Qed.

Lemma join_text_snoc (h : list loss) (l : loss) :
  "," +:+ String.concat "," (str_loss <$> (h ++ [l])) = lt_text str_loss (h ++ [l]).
Proof. destruct h as [|x xs]; [apply (join_text l [])|apply join_text]. Qed.

(** One call: either nothing is written and the loss joins the history,
    or the whole history, the new loss included, goes to the file. *)
Lemma lt_call_cases (self : LossTracker loss) (file : string) (l : loss)
    (epoch : Z) :
  interval self <> 0%Z ->
  (lt_call str_loss self file l epoch =
     (mkLossTracker (history self ++ [l]) (interval self) (opth self),
      file, Returns tt)
   /\ ((epoch mod interval self =? 0)%Z && (interval self <=? epoch)%Z = false))
  \/ (lt_call str_loss self file l epoch =
        (mkLossTracker [] (interval self) (opth self),
         file +:+ lt_text str_loss (history self ++ [l]), Returns tt)
      /\ ((epoch mod interval self =? 0)%Z && (interval self <=? epoch)%Z = true)).
Proof.
  intros Hi. unfold lt_call.
  destruct (Z.eqb_spec (interval self) 0) as [|_]; [contradiction|].
  destruct ((epoch mod interval self =? 0)%Z && (interval self <=? epoch)%Z).
  - right. split; [|reflexivity]. unfold write_history. simpl.
    rewrite join_text_snoc. reflexivity.
  - left. split; reflexivity.
Qed.

Lemma lt_run_app (a b : list (loss * Z)) (self : LossTracker loss)
    (file : string) :
  lt_run str_loss (a ++ b) self file =
  match lt_run str_loss a self file with
  | (s, f, Returns _) => lt_run str_loss b s f
  | r => r
  end.
Proof.
  revert self file. induction a as [|[l e] a IH]; intros self file; simpl.
  - reflexivity.
  - destruct (lt_call str_loss self file l e) as [[s f] [[]|x]]; [apply IH|reflexivity].
Qed.

(** Every run with an interval other than zero returns, keeps the
    interval and the path, and splits the losses between the file and
    the history. *)
Lemma lt_run_conserves (calls : list (loss * Z)) (self : LossTracker loss)
    (file : string) :
  interval self <> 0%Z ->
  exists written h,
    lt_run str_loss calls self file =
      (mkLossTracker h (interval self) (opth self),
       file +:+ lt_text str_loss written, Returns tt)
    /\ written ++ h = history self ++ calls.*1.
Proof.
  revert self file. induction calls as [|[l e] calls IH]; intros self file Hi.
  - exists [], (history self). simpl. rewrite string_app_nil_r, app_nil_r.
    destruct self; split; reflexivity.
  - simpl. destruct (lt_call_cases self file l e Hi) as [[-> _]|[-> _]].
    + destruct (IH (mkLossTracker (history self ++ [l]) (interval self)
                      (opth self)) file Hi) as (w & h & Hr & Hw).
      exists w, h. split; [exact Hr|].
      simpl in Hw. rewrite Hw, <- app_assoc. reflexivity.
    + destruct (IH (mkLossTracker [] (interval self) (opth self))
                   (file +:+ lt_text str_loss (history self ++ [l])) Hi)
        as (w & h & Hr & Hw).
      exists ((history self ++ [l]) ++ w), h. split.
      * rewrite Hr. simpl. f_equal. f_equal.
        rewrite (lt_text_app (history self ++ [l]) w).
        apply string_app_assoc.
      * simpl in Hw. rewrite <- !app_assoc, Hw. reflexivity.
Qed.

Lemma lt_written_le (i n : nat) : lt_written i n <= n.
Proof. unfold lt_written. destruct (n <=? S i); lia. Qed.

Lemma mod_succ (I n : nat) :
  0 < I -> n mod I <> 0 -> n mod I = S ((n - 1) mod I).
Proof.
  intros HI Hn.
  pose proof (Nat.div_mod_eq n I) as Hd.
  pose proof (Nat.mod_upper_bound n I ltac:(lia)) as Hb.
  assert ((n - 1) mod I = n mod I - 1) as ->; [|lia].
  symmetry. apply (Nat.mod_unique _ _ (n / I)); lia.
Qed.

Lemma lt_written_succ (i n : nat) :
  lt_written i (S n) =
  if (n mod S i =? 0) && (S i <=? n) then S n else lt_written i n.
Proof.
  unfold lt_written. replace (S n - 1) with n by lia.
  generalize (S i) (Nat.lt_0_succ i). intros I HI.
  destruct (Nat.eqb_spec (n mod I) 0) as [H0|H0]; cbn [andb].
  - destruct (Nat.leb_spec I n) as [Hle|Hlt].
    + destruct (Nat.leb_spec (S n) I); [lia|]. rewrite H0. lia.
    + destruct (Nat.leb_spec (S n) I); [|lia].
      destruct (Nat.leb_spec n I); [reflexivity|lia].
  - destruct (Nat.leb_spec (S n) I) as [Hle|Hlt].
    + destruct (Nat.leb_spec n I); [reflexivity|lia].
    + destruct (Nat.leb_spec n I) as [Hle'|Hlt'].
      * assert (n = I) as Hn by lia. exfalso. apply H0.
        rewrite Hn. apply Nat.Div0.mod_same.
      * rewrite (mod_succ I n HI H0).
        pose proof (Nat.mod_upper_bound (n - 1) I ltac:(lia)). lia.
Qed.

Lemma lt_epochs_snoc (losses : list loss) (l : loss) :
  lt_epochs (losses ++ [l]) =
  lt_epochs losses ++ [(l, Z.of_nat (length losses))].
Proof.
  unfold lt_epochs. rewrite length_app. simpl.
  rewrite seq_app, fmap_app. simpl.
  rewrite zip_with_app by (rewrite length_fmap, length_seq; reflexivity).
  reflexivity.
Qed.

(** The state after a loop over the epochs [0 .. n-1]. *)
Lemma lt_run_epochs (i : nat) (path file : string) (losses : list loss) :
  lt_run str_loss (lt_epochs losses) (lt_init path (Z.of_nat i)) file =
  (mkLossTracker (drop (lt_written i (length losses)) losses)
     (Z.of_nat (S i)) path,
   file +:+ lt_text str_loss (take (lt_written i (length losses)) losses),
   Returns tt).
Proof.
  induction losses as [|l losses IH] using rev_ind.
  - simpl. rewrite string_app_nil_r. unfold lt_init.
    replace (Z.of_nat i + 1)%Z with (Z.of_nat (S i)) by lia. reflexivity.
  - rewrite lt_epochs_snoc, lt_run_app, IH. simpl.
    pose proof (lt_written_le i (length losses)) as Hle.
    rewrite length_app. simpl. replace (length losses + 1) with (S (length losses)) by lia.
    rewrite lt_written_succ.
    set (w := lt_written i (length losses)) in *.
    set (self := mkLossTracker (drop w losses) (Z.of_nat (S i)) path).
    assert (((Z.of_nat (length losses) mod Z.of_nat (S i) =? 0)%Z
             && (Z.of_nat (S i) <=? Z.of_nat (length losses))%Z)
            = ((length losses mod S i =? 0) && (S i <=? length losses))) as Hb.
    { rewrite <- Nat2Z.inj_mod. f_equal.
      - destruct (Nat.eqb_spec (length losses mod S i) 0);
          destruct (Z.eqb_spec (Z.of_nat (length losses mod S i)) 0); lia.
      - destruct (Nat.leb_spec (S i) (length losses));
          destruct (Z.leb_spec (Z.of_nat (S i)) (Z.of_nat (length losses))); lia. }
    destruct (lt_call_cases self (file +:+ lt_text str_loss (take w losses)) l
                (Z.of_nat (length losses)) ltac:(simpl; lia))
      as [[-> Hc]|[-> Hc]]; simpl in Hc; rewrite Hb in Hc; rewrite Hc; simpl.
    + rewrite drop_app_le, take_app_le by lia. reflexivity.
    + rewrite string_app_assoc, <- lt_text_app, app_assoc, take_drop.
      rewrite drop_ge by (rewrite length_app; simpl; lia).
      rewrite take_ge by (rewrite length_app; simpl; lia).
      reflexivity.
Qed.

End LossTrackerFacts.

(** X12. A run of calls on a tracker whose interval is not zero returns,
    whatever the epochs are, and loses no loss and repeats none: the file
    gains, each after a comma and in the order of the calls, the losses
    that were written, and these followed by the history that is left are
    the old history followed by the losses of the calls. *)
Theorem losses_conserved {loss : Type} (str_loss : loss -> string)
    (calls : list (loss * Z)) (self : LossTracker loss) (file : string) :
  interval self <> 0%Z ->
  exists written h,
    lt_run str_loss calls self file =
      (mkLossTracker h (interval self) (opth self),
       file +:+ lt_text str_loss written, Returns tt)
    /\ written ++ h = history self ++ calls.*1.
Proof. apply lt_run_conserves. Qed.

Lemma losses_conserved_witness :
  interval (lt_init (loss := nat) "loss.txt" 1) <> 0%Z
  /\ exists written h,
       lt_run str [(5, 3%Z); (7, 4%Z); (9, 8%Z)] (lt_init "loss.txt" 1) "l"
       = (mkLossTracker h 2 "loss.txt", "l" +:+ lt_text str written, Returns tt)
       /\ written ++ h = [] ++ [5; 7; 9].
Proof.
  split; [vm_compute; discriminate|].
  apply (losses_conserved str [(5, 3%Z); (7, 4%Z); (9, 8%Z)]
           (lt_init "loss.txt" 1) "l").
  vm_compute. discriminate.
Defined.

(** X13. A tracker made with the interval [i] and called at the epochs
    0, 1, ..., n-1 writes for the first time at the epoch i+1, all the
    i+2 losses it has, and then at every multiple of i+1: after the n
    calls the file holds the first [lt_written i n] losses, which is none
    when n <= i+1 and all but the last (n-1) mod (i+1) otherwise, and the
    history holds the others. *)
Theorem losses_after_epochs {loss : Type} (str_loss : loss -> string)
    (i : nat) (path file : string) (losses : list loss) :
  lt_run str_loss (lt_epochs losses) (lt_init path (Z.of_nat i)) file =
  (mkLossTracker (drop (lt_written i (length losses)) losses)
     (Z.of_nat (S i)) path,
   file +:+ lt_text str_loss (take (lt_written i (length losses)) losses),
   Returns tt).
Proof. apply lt_run_epochs. Qed.

(** X14. Right after the call at the epoch n of such a loop, [current]
    raises IndexError when n is a positive multiple of i+1, that is when
    the history has just been written, and is the loss of that call
    otherwise. *)
Theorem current_after_epochs {loss : Type} (str_loss : loss -> string)
    (i : nat) (path file : string) (losses : list loss) (l : loss) :
  lt_current
    (lt_run str_loss (lt_epochs (losses ++ [l]))
       (lt_init path (Z.of_nat i)) file).1.1
  = if (length losses mod S i =? 0) && (S i <=? length losses)
    then Raise IndexError else Ok l.
Proof.
  rewrite lt_run_epochs. cbn [fst]. unfold lt_current. cbn [history].
  rewrite length_app. cbn [length].
  replace (length losses + 1) with (S (length losses)) by lia.
  rewrite lt_written_succ.
  destruct ((length losses mod S i =? 0) && (S i <=? length losses)).
  - rewrite drop_ge by (rewrite length_app; simpl; lia). reflexivity.
  - pose proof (lt_written_le i (length losses)).
    rewrite drop_app_le by lia. rewrite last_snoc. reflexivity.
Qed.

(** X15. With the interval zero, which [LossTracker(opth, -1)] gives, the
    first call raises ZeroDivisionError at whatever epoch, after the loss
    has been put in the history and with nothing written. *)
Theorem zero_interval_raises {loss : Type} (str_loss : loss -> string)
    (self : LossTracker loss) (file : string) (l : loss) (epoch : Z)
    (rest : list (loss * Z)) :
  interval self = 0%Z ->
  lt_run str_loss ((l, epoch) :: rest) self file =
  (mkLossTracker (history self ++ [l]) 0 (opth self), file,
   Raises ZeroDivisionError).
Proof.
  intros Hi. cbn [lt_run]. unfold lt_call. rewrite Hi. reflexivity.
Qed.

Lemma zero_interval_raises_witness :
  interval (lt_init (loss := nat) "loss.txt" (-1)) = 0%Z
  /\ lt_run str [(5, 0%Z); (7, 1%Z)] (lt_init "loss.txt" (-1)) "" =
     (mkLossTracker [5] 0 "loss.txt", "", Raises ZeroDivisionError).
Proof.
  split; [reflexivity|].
  apply (zero_interval_raises str (lt_init "loss.txt" (-1)) "" 5 0 [(7, 1%Z)]).
  reflexivity.
Defined.

(** ** Paths and their extensions *)

Section Paths.

Lemma length_string_app (a b : string) :
  String.length (a +:+ b) = String.length a + String.length b.
Proof.
  induction a as [|x a IH]; [reflexivity|].
  rewrite string_app_cons. cbn [String.length]. rewrite IH. reflexivity.
Qed.

Lemma has_char_app (q : ascii -> bool) (a b : string) :
  has_char q (a +:+ b) = has_char q a || has_char q b.
Proof.
  induction a as [|x a IH]; [reflexivity|].
  rewrite string_app_cons. cbn [has_char]. rewrite IH, orb_assoc. reflexivity.
Qed.

Lemma rfind_None (c : ascii) (s : string) :
  rfind c s = None <-> has_char (fun a => Ascii.eqb a c) s = false.
Proof.
  induction s as [|x s IH]; [split; reflexivity|].
  cbn [rfind has_char]. destruct (rfind c s) as [i|].
  - split; [discriminate|]. intros H.
    apply orb_false_elim in H as [_ H]. apply IH in H. discriminate.
  - rewrite (proj1 IH eq_refl), orb_false_r.
    destruct (Ascii.eqb x c); split; (reflexivity || discriminate).
Qed.

Lemma rfind_app (c : ascii) (a b : string) :
  rfind c (a +:+ b) =
  match rfind c b with
  | Some i => Some (String.length a + i)
  | None => rfind c a
  end.
Proof.
  induction a as [|x a IH].
  - change (EmptyString +:+ b) with b. destruct (rfind c b); reflexivity.
  - rewrite string_app_cons. cbn [rfind String.length]. rewrite IH.
    destruct (rfind c b); reflexivity.
Qed.

Lemma rfind_split (c : ascii) (s : string) (i : nat) :
  rfind c s = Some i ->
  exists a b, s = a +:+ String c b /\ String.length a = i /\ rfind c b = None.
Proof.
  revert i. induction s as [|x s IH]; intros i; [discriminate|].
  cbn [rfind]. destruct (rfind c s) as [j|] eqn:E.
  - intros [= <-]. destruct (IH j eq_refl) as (a & b & -> & Hl & Hb).
    exists (String x a), b. rewrite string_app_cons. cbn [String.length].
    rewrite Hl. auto.
  - destruct (Ascii.eqb_spec x c) as [->|]; [|discriminate].
    intros [= <-]. exists EmptyString, s. auto.
Qed.

Lemma string_app_split (a b c d : string) :
  a +:+ b = c +:+ d -> String.length c <= String.length a ->
  exists m, a = c +:+ m /\ d = m +:+ b.
Proof.
  revert a. induction c as [|x c IH]; intros a H Hl.
  - exists a. split; [reflexivity|]. symmetry. exact H.
  - destruct a as [|y a]; [cbn [String.length] in Hl; lia|].
    rewrite !string_app_cons in H. injection H as -> H.
    cbn [String.length] in Hl.
    destruct (IH a H ltac:(lia)) as (m & -> & ->).
    exists m. rewrite string_app_cons. auto.
Qed.

Lemma substring_app_skip (a b : string) (i n : nat) :
  substring (String.length a + i) n (a +:+ b) = substring i n b.
Proof. induction a as [|x a IH]; [reflexivity|]. exact IH. Qed.

Lemma substring_prefix (a b : string) :
  substring 0 (String.length a) (a +:+ b) = a.
Proof.
  induction a as [|x a IH]; [destruct b; reflexivity|].
  rewrite string_app_cons. cbn [String.length substring]. rewrite IH.
  reflexivity.
Qed.

Lemma substring_all (b : string) : substring 0 (String.length b) b = b.
Proof.
  induction b as [|x b IH]; [reflexivity|].
  cbn [String.length substring]. rewrite IH. reflexivity.
Qed.

Lemma substring_suffix (a b : string) :
  substring (String.length a)
    (String.length (a +:+ b) - String.length a) (a +:+ b) = b.
Proof.
  rewrite length_string_app.
  replace (String.length a + String.length b - String.length a)
    with (String.length b) by lia.
  rewrite <- (Nat.add_0_r (String.length a)) at 1.
  rewrite substring_app_skip. apply substring_all.
Qed.

(** The loop of [splitext] over the name of the file. *)
Lemma leading_dots (dir name rest : string) :
  existsb (fun i => negb (String.eqb (substring i 1 (dir +:+ name +:+ rest)) "."))
    (seq (String.length dir) (String.length name))
  = has_char (fun c => negb (Ascii.eqb c ".")) name.
Proof.
  revert dir. induction name as [|c name IH]; intros dir; [reflexivity|].
  cbn [String.length seq existsb has_char]. f_equal.
  - rewrite <- (Nat.add_0_r (String.length dir)), substring_app_skip.
    rewrite string_app_cons. cbn [substring].
    destruct (name +:+ rest); cbn [substring String.eqb];
      destruct (Ascii.eqb c "."); reflexivity.
  - specialize (IH (dir +:+ String c EmptyString)).
    rewrite length_string_app in IH. cbn [String.length] in IH.
    replace (String.length dir + 1) with (S (String.length dir)) in IH by lia.
    rewrite <- IH. rewrite string_app_assoc. reflexivity.
Qed.

Lemma rfind_dir (dir : string) :
  dir_prefix dir ->
  match rfind "/" dir with Some i => S i | None => 0 end = String.length dir.
Proof.
  intros [->|[d ->]]; [reflexivity|].
  rewrite rfind_app. cbn [rfind Ascii.eqb]. rewrite length_string_app.
  simpl. lia.
Qed.

(** [splitext] on a path written as directory, name, dot and rest. *)
Lemma splitext_path (dir name b : string) :
  dir_prefix dir ->
  has_char (fun c => Ascii.eqb c "/") name = false ->
  rfind "." b = None -> rfind "/" b = None ->
  splitext (dir +:+ name +:+ "." +:+ b) =
  if has_char (fun c => negb (Ascii.eqb c ".")) name
  then (dir +:+ name, "." +:+ b)
  else (dir +:+ name +:+ "." +:+ b, EmptyString).
Proof.
  intros Hd Hn Hb Hs. unfold splitext.
  assert (rfind "/" (dir +:+ name +:+ "." +:+ b) = rfind "/" dir) as ->.
  { rewrite rfind_app, rfind_app, rfind_app, Hs. cbn [rfind Ascii.eqb].
    simpl. rewrite (proj2 (rfind_None _ _) Hn). reflexivity. }
  rewrite (rfind_dir dir Hd).
  assert (rfind "." (dir +:+ name +:+ "." +:+ b)
          = Some (String.length dir + String.length name)) as ->.
  { rewrite <- string_app_assoc, rfind_app, rfind_app, Hb.
    rewrite length_string_app. simpl. f_equal. lia. }
  replace (String.length dir + String.length name - String.length dir)
    with (String.length name) by lia.
  rewrite leading_dots.
  destruct (Nat.leb_spec (String.length dir)
              (String.length dir + String.length name)); [|lia].
  cbn [andb].
  destruct (has_char (fun c => negb (Ascii.eqb c ".")) name); [|reflexivity].
  assert (dir +:+ name +:+ "." +:+ b = (dir +:+ name) +:+ ("." +:+ b)) as ->
    by (rewrite string_app_assoc; reflexivity).
  rewrite <- (length_string_app dir name).
  rewrite substring_prefix, substring_suffix. reflexivity.
Qed.

(** Every path with a dot after its last slash is of this form. *)
Lemma path_parts (p : string) (d : nat) :
  rfind "." p = Some d ->
  match rfind "/" p with Some i => S i | None => 0 end <= d ->
  exists dir name b,
    p = dir +:+ name +:+ "." +:+ b
    /\ dir_prefix dir
    /\ has_char (fun c => Ascii.eqb c "/") name = false
    /\ rfind "." b = None /\ rfind "/" b = None.
Proof.
  intros Hdot Hsep.
  destruct (rfind_split _ _ _ Hdot) as (a & b & -> & Hl & Hb).
  destruct (rfind "/" (a +:+ String "." b)) as [s|] eqn:E.
  - destruct (rfind_split _ _ _ E) as (x & y & Hp & Hx & Hy).
    change (x +:+ String "/" y) with (x +:+ "/" +:+ y) in Hp.
    rewrite <- string_app_assoc in Hp.
    destruct (string_app_split _ _ _ _ Hp) as (name & -> & ->).
    { rewrite length_string_app. simpl. lia. }
    apply rfind_None in Hy. rewrite has_char_app in Hy.
    apply orb_false_elim in Hy as [Hn Hy]. cbn [has_char] in Hy.
    apply orb_false_elim in Hy as [_ Hy].
    exists (x +:+ "/"), name, b. repeat split.
    + rewrite !string_app_assoc. reflexivity.
    + right. exists x. reflexivity.
    + exact Hn.
    + exact Hb.
    + apply rfind_None, Hy.
  - apply rfind_None in E. rewrite has_char_app in E.
    apply orb_false_elim in E as [Hn Hy]. cbn [has_char] in Hy.
    apply orb_false_elim in Hy as [_ Hy].
    exists EmptyString, a, b. repeat split.
    + left. reflexivity.
    + exact Hn.
    + exact Hb.
    + apply rfind_None, Hy.
Qed.

Lemma elem_of_supported (e : string) :
  e ∈ supported <-> e = "tsv" \/ e = "gz".
Proof.
  unfold supported. rewrite elem_of_cons, list_elem_of_singleton.
  reflexivity.
Qed.

Lemma supported_plain (e : string) :
  e ∈ supported -> rfind "." e = None /\ rfind "/" e = None.
Proof.
  intros He. apply elem_of_supported in He as [->| ->]; split; reflexivity.
Qed.

(** The paths whose extension is supported. *)
Lemma extension_supported (p : string) :
  extension p ∈ supported <-> supported_path p.
Proof.
  split.
  - intros He. unfold extension in He.
    destruct (splitext p) as [r e] eqn:Es. cbn [snd] in He.
    destruct e as [|c e].
    { apply elem_of_supported in He as [|]; discriminate. }
    pose proof Es as Es'. unfold splitext in Es'.
    destruct (rfind "." p) as [d|] eqn:Ed; [|discriminate].
    destruct (Nat.leb_spec
                (match rfind "/" p with Some i => S i | None => 0 end) d)
      as [Hle|]; [|discriminate].
    clear Es'.
    destruct (path_parts p d Ed Hle)
      as (dir & name & b & -> & Hd & Hn & Hb & Hs).
    rewrite (splitext_path dir name b Hd Hn Hb Hs) in Es.
    destruct (has_char (fun c => negb (Ascii.eqb c ".")) name) eqn:Hx;
      [|discriminate].
    injection Es as _ _ <-.
    exists dir, name, b. repeat split; assumption.
  - intros (dir & name & ext & -> & Hd & [Hn Hx] & He).
    destruct (supported_plain ext He) as [Hb Hs].
    unfold extension. rewrite (splitext_path dir name ext Hd Hn Hb Hs), Hx.
    exact He.
Qed.

Lemma extension_path (dir name ext : string) :
  dir_prefix dir -> file_stem name -> ext ∈ supported ->
  extension (dir +:+ name +:+ "." +:+ ext) = ext.
Proof.
  intros Hd [Hn Hx] He. destruct (supported_plain ext He) as [Hb Hs].
  unfold extension. rewrite (splitext_path dir name ext Hd Hn Hb Hs), Hx.
  reflexivity.
Qed.

End Paths.

#[global] Instance supported_path_dec (p : string) : Decision (supported_path p).
Proof.
  destruct (decide (extension p ∈ supported)) as [H|H].
  - left. apply extension_supported, H.
  - right. intros Hp. apply H, extension_supported, Hp.
Defined.

(** ** Reading the files *)

Section ReadFiles.

Variable read_csv : string -> compression -> option DataFrame.

Lemma read_file_supported_ext (p : string) :
  extension p ∈ supported ->
  read_file read_csv p =
  match read_csv p (compression_of p) with
  | Some file => ([], Returns (Some file))
  | None => ([read_error_message p], Returns None)
  end.
Proof.
  intros He. unfold read_file, compression_of.
  rewrite (bool_decide_eq_true_2 _ He). cbn [negb].
  apply elem_of_supported in He as [-> | ->]; reflexivity.
Qed.

Lemma read_file_unsupported_ext (p : string) :
  extension p ∉ supported ->
  read_file read_csv p =
  ([unsupported_message (extension p)], Raises (SystemExit (-1))).
Proof.
  intros He. unfold read_file.
  rewrite (bool_decide_eq_false_2 _ He). reflexivity.
Qed.

Lemma read_file_readable (p : string) (cnt : DataFrame) :
  readable read_csv p cnt -> read_file read_csv p = ([], Returns (Some cnt)).
Proof.
  intros [Hp Hr]. apply extension_supported in Hp.
  rewrite (read_file_supported_ext p Hp), Hr. reflexivity.
Qed.

(** The first loop over paths that are all read. *)
Lemma read_loop_readable (good tail : list string) (cnts : list DataFrame)
    (k : nat) (st : read_state) (out : list string) :
  Forall2 (readable read_csv) good cnts ->
  read_loop read_csv (enumerate_from k (good ++ tail)) st out =
  read_loop read_csv (enumerate_from (k + length good) tail)
    (fold_left read_step (enumerate_from k cnts) st) out.
Proof.
  intros H. revert k st. induction H as [|p c good cnts Hp _ IH]; intros k st.
  - simpl. rewrite Nat.add_0_r. reflexivity.
  - simpl. rewrite (read_file_readable p c Hp), app_nil_r, IH.
    replace (S k + length good) with (k + S (length good)) by lia.
    reflexivity.
Qed.

Lemma join_read_tables (cnts : list DataFrame) :
  make_joint_matrix cnts =
  join_read (fold_left read_step (enumerate cnts) read_init).
Proof. reflexivity. Qed.

Lemma paths_readable (pths : list string) (cnts : list DataFrame) :
  Forall2 (readable read_csv) pths cnts ->
  make_joint_matrix_paths read_csv pths = ([], lift (make_joint_matrix cnts)).
Proof.
  intros H. unfold make_joint_matrix_paths, enumerate.
  rewrite <- (app_nil_r pths), (read_loop_readable pths [] cnts 0 _ _ H).
  simpl. rewrite join_read_tables. reflexivity.
Qed.

Lemma paths_stop (good rest : list string) (cnts : list DataFrame)
    (p : string) (o : list string) (e : py_exception) :
  Forall2 (readable read_csv) good cnts ->
  (read_file read_csv p = (o, Raises e)
   \/ read_file read_csv p = (o, Returns None) /\ e = AttributeError) ->
  make_joint_matrix_paths read_csv (good ++ p :: rest) = (o, Raises e).
Proof.
  intros H Hp. unfold make_joint_matrix_paths, enumerate.
  rewrite (read_loop_readable good (p :: rest) cnts 0 _ _ H). simpl.
  destruct Hp as [-> | [-> ->]]; reflexivity.
Qed.

End ReadFiles.

(** X16. [read_file] on a path made of a directory part (empty or ended by
    a slash), a name without slash that has a character other than a dot,
    a dot and one of the extensions tsv and gz: the file is read, with the
    compression inferred for tsv and set to gzip for gz, and its table is
    returned; when the reading raises, a line naming the path is printed
    and None is returned, no exception being raised. *)
Theorem read_file_supported
    (read_csv : string -> compression -> option DataFrame)
    (dir name ext : string) :
  dir_prefix dir -> file_stem name -> ext ∈ supported ->
  read_file read_csv (dir +:+ name +:+ "." +:+ ext) =
  match read_csv (dir +:+ name +:+ "." +:+ ext)
          (if String.eqb ext "tsv" then infer else gzip) with
  | Some file => ([], Returns (Some file))
  | None =>
      ([read_error_message (dir +:+ name +:+ "." +:+ ext)], Returns None)
  end.
Proof.
  intros Hd Hn He.
  rewrite read_file_supported_ext
    by (apply extension_supported; exists dir, name, ext; auto).
  unfold compression_of. rewrite (extension_path dir name ext Hd Hn He).
  reflexivity.
Qed.

Lemma read_file_supported_witness :
  dir_prefix "data/" /\ file_stem "a" /\ "tsv" ∈ supported
  /\ read_file scenario_files "data/a.tsv" = ([], Returns (Some scenario_T0)).
Proof.
  assert (dir_prefix "data/") as Hd by (right; exists "data"; reflexivity).
  assert (file_stem "a") as Hn by (split; reflexivity).
  assert ("tsv" ∈ supported) as He by (vm_compute; left).
  split; [exact Hd|]. split; [exact Hn|]. split; [exact He|].
  apply (read_file_supported scenario_files "data/" "a" "tsv" Hd Hn He).
Defined.

(** X17. On every other path [read_file] reads nothing: it prints the line
    about the format that is not supported and leaves by [sys.exit(-1)].
    Such are the paths without extension, with another extension, and the
    names that are only dots before the extension, as [.tsv]. *)
Theorem read_file_unsupported
    (read_csv : string -> compression -> option DataFrame) (p : string) :
  ~ supported_path p ->
  read_file read_csv p =
  ([unsupported_message (extension p)], Raises (SystemExit (-1))).
Proof.
  intros Hp. apply read_file_unsupported_ext.
  intros He. apply Hp, extension_supported, He.
Qed.

Lemma read_file_unsupported_witness :
  ~ supported_path "data/.tsv"
  /\ read_file scenario_files "data/.tsv" =
     (["ERROR: File format  is not yet supported. Please use any of tsv gz formats instead"],
      Raises (SystemExit (-1))).
Proof.
  assert (~ supported_path "data/.tsv") as Hp by compute_done.
  split; [exact Hp|].
  apply (read_file_unsupported scenario_files "data/.tsv" Hp).
Defined.

(** X18. [make_joint_matrix] on paths that [read_file] accepts and reads
    prints nothing and does what the joining of the tables of the files
    does: the same table or the same exception. *)
Theorem join_paths_refines
    (read_csv : string -> compression -> option DataFrame)
    (pths : list string) (cnts : list DataFrame) :
  Forall2 (readable read_csv) pths cnts ->
  make_joint_matrix_paths read_csv pths = ([], lift (make_joint_matrix cnts)).
Proof. apply paths_readable. Qed.

Lemma join_paths_refines_witness :
  Forall2 (readable scenario_files) ["data/a.tsv"; "b.gz"]
    [scenario_T0; scenario_T1]
  /\ make_joint_matrix_paths scenario_files ["data/a.tsv"; "b.gz"] =
     ([], Returns scenario_joint).
Proof.
  assert (Forall2 (readable scenario_files) ["data/a.tsv"; "b.gz"]
            [scenario_T0; scenario_T1]) as H.
  { repeat constructor; compute_done. }
  split; [exact H|].
  apply (join_paths_refines scenario_files _ _ H).
Defined.

(** X19. The first path that [read_file] does not accept ends
    [make_joint_matrix] by [sys.exit(-1)], after the files before it have
    been read and whatever the paths after it are. *)
Theorem join_paths_exits
    (read_csv : string -> compression -> option DataFrame)
    (good rest : list string) (cnts : list DataFrame) (p : string) :
  Forall2 (readable read_csv) good cnts ->
  ~ supported_path p ->
  make_joint_matrix_paths read_csv (good ++ p :: rest) =
  ([unsupported_message (extension p)], Raises (SystemExit (-1))).
Proof.
  intros H Hp. apply (paths_stop read_csv good rest cnts p _ _ H).
  left. apply read_file_unsupported_ext.
  intros He. apply Hp, extension_supported, He.
Qed.

Lemma join_paths_exits_witness :
  Forall2 (readable scenario_files) ["data/a.tsv"] [scenario_T0]
  /\ ~ supported_path "c.csv"
  /\ make_joint_matrix_paths scenario_files ["data/a.tsv"; "c.csv"; "b.gz"] =
     (["ERROR: File format csv is not yet supported. Please use any of tsv gz formats instead"],
      Raises (SystemExit (-1))).
Proof.
  assert (Forall2 (readable scenario_files) ["data/a.tsv"] [scenario_T0]) as H.
  { repeat constructor; compute_done. }
  assert (~ supported_path "c.csv") as Hp by compute_done.
  split; [exact H|]. split; [exact Hp|].
  apply (join_paths_exits scenario_files ["data/a.tsv"] ["b.gz"]
           [scenario_T0] "c.csv" H Hp).
Defined.

(** X20. A file with a supported extension that cannot be read does not
    stop [read_file], which returns None, but stops [make_joint_matrix] at
    [cnt.index] with an AttributeError, the line of [read_file] about the
    path being the only thing printed. *)
Theorem join_paths_unread
    (read_csv : string -> compression -> option DataFrame)
    (good rest : list string) (cnts : list DataFrame) (p : string) :
  Forall2 (readable read_csv) good cnts ->
  supported_path p ->
  read_csv p (compression_of p) = None ->
  make_joint_matrix_paths read_csv (good ++ p :: rest) =
  ([read_error_message p], Raises AttributeError).
Proof.
  intros H Hp Hr. apply (paths_stop read_csv good rest cnts p _ _ H).
  right. split; [|reflexivity].
  rewrite read_file_supported_ext by (apply extension_supported, Hp).
  rewrite Hr. reflexivity.
Qed.

Lemma join_paths_unread_witness :
  Forall2 (readable scenario_files) ["data/a.tsv"] [scenario_T0]
  /\ supported_path "missing.tsv"
  /\ scenario_files "missing.tsv" (compression_of "missing.tsv") = None
  /\ make_joint_matrix_paths scenario_files ["data/a.tsv"; "missing.tsv"] =
     (["Something went wrong when trying to read file >> missing.tsv"],
      Raises AttributeError).
Proof.
  assert (Forall2 (readable scenario_files) ["data/a.tsv"] [scenario_T0]) as H.
  { repeat constructor; compute_done. }
  assert (supported_path "missing.tsv") as Hp by compute_done.
  split; [exact H|]. split; [exact Hp|]. split; [reflexivity|].
  apply (join_paths_unread scenario_files ["data/a.tsv"] []
           [scenario_T0] "missing.tsv" H Hp).
  reflexivity.
Defined.



(** ** The logger *)

Section LoggerFacts.

Lemma Logger_handlers (lognames : list string) (log : logger) :
  log_handlers (foldl (flip Logger) log lognames) =
  log_handlers log
  ++ concat ((fun n => [mkHandler (File n) DEBUG; mkHandler Stderr DEBUG])
               <$> lognames).
Proof.
  revert log. induction lognames as [|n ns IH]; intros log.
  - simpl. rewrite app_nil_r. reflexivity.
  - cbn [foldl]. rewrite IH. unfold flip. cbn [Logger log_handlers].
    rewrite fmap_cons. cbn [concat]. rewrite <- app_assoc. reflexivity.
Qed.

Lemma Logger_level (lognames : list string) (log : logger) :
  lognames <> [] ->
  log_level (foldl (flip Logger) log lognames) = DEBUG.
Proof.
  induction lognames as [|n ns IH] using rev_ind; [contradiction|].
  intros _. rewrite foldl_snoc. reflexivity.
Qed.

End LoggerFacts.

(** X22. The handlers of [Logger] add up on the one logger 'stsc': after
    calls with the names n1, ..., nk a record of level DEBUG or above is
    written 2k times, once to the file of each call and, after each file,
    once more to the standard error; a file named twice gets the record
    twice. *)
Theorem logger_repeats (lognames : list string) (levelno : Z) :
  lognames <> [] -> (DEBUG <= levelno)%Z ->
  emit (foldl (flip Logger) new_logger lognames) levelno
  = concat ((fun n => [File n; Stderr]) <$> lognames).
Proof.
  intros Hne Hl. unfold emit.
  rewrite (Logger_level lognames new_logger Hne), Logger_handlers.
  destruct (Z.leb_spec DEBUG levelno) as [_|]; [|lia].
  cbn [new_logger log_handlers app]. clear Hne.
  induction lognames as [|n ns IH]; [reflexivity|].
  rewrite !fmap_cons. cbn [concat app].
  rewrite !filter_cons. cbn [h_level].
  destruct (decide (DEBUG <= levelno)%Z) as [_|]; [|contradiction].
  rewrite !fmap_cons. cbn [h_sink]. f_equal. f_equal. exact IH.
Qed.

Lemma logger_repeats_witness :
  ["run.log"; "run.log"; "b.log"] <> [] /\ (DEBUG <= 20)%Z
  /\ emit (foldl (flip Logger) new_logger ["run.log"; "run.log"; "b.log"]) 20
     = [File "run.log"; Stderr; File "run.log"; Stderr; File "b.log"; Stderr].
Proof.
  assert (["run.log"; "run.log"; "b.log"] <> []) as H by discriminate.
  assert (DEBUG <= 20)%Z as Hl by (vm_compute; discriminate).
  split; [exact H|]. split; [exact Hl|].
  apply (logger_repeats ["run.log"; "run.log"; "b.log"] 20 H Hl).
Defined.
